(** * Latin square game: a shallow embedding of [latinsquare.c]

    The C program keeps the board in an [int arr[N][N]] of which the
    top-left [size] x [size] corner is in use.  A cell holding [0] is
    empty, a negative cell is a given of the puzzle (shown in
    parentheses by [displayLatinSquare]) and a positive cell was
    entered by the player.  [play] reads one command per call and
    calls itself again for the next one. *)

From Stdlib Require Import ZArith Lia List String.
From stdpp Require Import base list.

Local Open Scope Z_scope.

Module LatinSquare.

(** ** Machine integers *)

(** [#define N 9] *)
Definition N : nat := 9.

Definition INT_MIN : Z := - 2 ^ 31.
Definition INT_MAX : Z := 2 ^ 31 - 1.

Definition is_int (x : Z) : Prop := INT_MIN <= x <= INT_MAX.

(** Two's complement wrap-around of a 32-bit [int]. *)
Definition wrap_int (x : Z) : Z := (x + 2 ^ 31) mod 2 ^ 32 - 2 ^ 31.

(** [abs] of [stdlib.h]; on [INT_MIN] the result wraps back to [INT_MIN]. *)
Definition abs (x : Z) : Z := wrap_int (Z.abs x).

(** ** The board *)

(** [int arr[N][N]]: a list of rows. *)
Abbreviation grid := (list (list Z)).

(** [arr[r][c]] *)
Definition cell (arr : grid) (r c : nat) : Z :=
  default 0 (arr !! r ≫= λ row : list Z, row !! c).

(** [arr[r][c] = v] *)
Definition store (arr : grid) (r c : nat) (v : Z) : grid :=
  alter (λ row : list Z, <[c:=v]> row) r arr.

(** An [N] x [N] array of [int]s. *)
Definition wf_grid (arr : grid) : Prop :=
  length arr = N ∧
  Forall (λ row : list Z, length row = N ∧ Forall is_int row) arr.

(** [int latinSquare[N][N] = {0}] *)
Definition zero_grid : grid := replicate N (replicate N 0).

(** The reading of a cell that the program's branches and its display
    routine share: [0] is empty, a negative entry is a given, a positive
    entry is the player's. *)
Inductive Cell : Type :=
| Empty
| Fixed (v : Z)
| Filled (v : Z).

Definition cell_view (x : Z) : Cell :=
  if x =? 0 then Empty else if x <? 0 then Fixed (abs x) else Filled x.

(** ** Console and file output *)

Inductive message : Type :=
| Usage (prog : string)          (* "Usage: %s <filename> ..." *)
| ErrAccessFile (f : string)     (* "Error! Unable to access file %s" *)
| ErrInvalidSize                 (* "Error: Detected invalid size of latin square in the file..." *)
| ErrInvalidData                 (* "Error: Invalid input detected in the Latin square data..." *)
| ErrReadFailed (f : string)     (* "Error: Something went wrong while reading the file %s" *)
| ErrWrongFormat                 (* "Error: wrong format of command" *)
| ErrOutOfRange (size : Z)       (* "Error: i,j or val are outside the allowed range [1..%d]!" *)
| ErrIllegalClear                (* "Error: illegal to clear cell!" *)
| ErrOccupied                    (* "Error: cell is already occupied!" *)
| ErrIllegalInsertion            (* "Error: Illegal value insertion!" *)
| ValueCleared                   (* "Value Cleared!" *)
| ValueInserted                  (* "Value Inserted!" *)
| GameCompleted.                 (* "Game completed!!!" *)

Inductive event : Type :=
| Printf (m : message)
| DisplayLatinSquare (arr : grid) (size : Z)
| DisplayInstructionDialogue
| WriteLatinSquare (arr : grid) (size : Z) (fileNameOut : string).

Definition is_error (m : message) : bool :=
  match m with
  | ValueCleared | ValueInserted | GameCompleted => false
  | _ => true
  end.

(** ** [play] *)

(** What [scanf("%d,%d=%d", &i, &j, &val)] delivers: three integers, or
    anything else (the rest of the line is then thrown away). *)
Inductive scanned : Type :=
| Scan3 (i j val : Z)
| ScanFail.

(** How one activation of [play] ends: with a call to itself for the next
    command, or with a plain return. *)
Inductive control : Type :=
| Call (size isDispNeeded : Z)
| Return.

Record outcome : Type := Outcome {
  emitted : list event;
  after : grid;
  next : control
}.

(** First loop of [play]: look for [val] in row [r].  [n] counts the
    iterations that are left, [t] is the loop variable. *)
Fixpoint row_scan (arr : grid) (r : nat) (val : Z) (n t : nat)
    (areRulesBroken : Z) : Z :=
  match n with
  | O => areRulesBroken
  | S n' =>
      if cell arr r t =? 0 then row_scan arr r val n' (S t) areRulesBroken
      else if abs (cell arr r t) =? val then 1
      else row_scan arr r val n' (S t) areRulesBroken
  end.

(** Second loop of [play]: look for [val] in column [c]. *)
Fixpoint col_scan (arr : grid) (c : nat) (val : Z) (n t : nat)
    (areRulesBroken : Z) : Z :=
  match n with
  | O => areRulesBroken
  | S n' =>
      if cell arr t c =? 0 then col_scan arr c val n' (S t) areRulesBroken
      else if abs (cell arr t c) =? val then 1
      else col_scan arr c val n' (S t) areRulesBroken
  end.

(** Inner loop of the winning test: an empty cell in row [i] clears the flag. *)
Fixpoint won_row (arr : grid) (i : nat) (n j : nat) (isGameWon : Z) : Z :=
  match n with
  | O => isGameWon
  | S n' => if cell arr i j =? 0 then 0 else won_row arr i n' (S j) isGameWon
  end.

(** Outer loop of the winning test; it stops as soon as the flag is down. *)
Fixpoint won_rows (arr : grid) (size : nat) (n i : nat) (isGameWon : Z) : Z :=
  match n with
  | O => isGameWon
  | S n' =>
      if isGameWon =? 0 then isGameWon
      else won_rows arr size n' (S i) (won_row arr i size 0 isGameWon)
  end.

Definition game_won (arr : grid) (size : Z) : Z :=
  won_rows arr (Z.to_nat size) (Z.to_nat size) 0 1.

(** The display at the top of [play]. *)
Definition prologue (arr : grid) (size isDispNeeded : Z) : list event :=
  if isDispNeeded =? 1
  then [DisplayLatinSquare arr size; DisplayInstructionDialogue]
  else [].

(** One activation of [play], up to its recursive call or its return. *)
Definition play_body (arr : grid) (size isDispNeeded : Z)
    (outFileName : string) (input : scanned) : outcome :=
  let pre := prologue arr size isDispNeeded in
  match input with
  | ScanFail => Outcome (pre ++ [Printf ErrWrongFormat]) arr (Call size 0)
  | Scan3 i j val =>
    if (i =? 0) && (j =? 0) && (val =? 0) then
      Outcome (pre ++ [WriteLatinSquare arr size outFileName]) arr Return
    else if ((i <? 1) || (i >? size)) || ((j <? 1) || (j >? size))
            || ((val <? 0) || (val >? size)) then
      Outcome (pre ++ [Printf (ErrOutOfRange size)]) arr (Call size 0)
    else
      let r := Z.to_nat (i - 1) in
      let c := Z.to_nat (j - 1) in
      (* from "Check Latin square rules" to the end of the function *)
      let rules_and_insert :=
        let areRulesBroken := row_scan arr r val (Z.to_nat size) 0 0 in
        let areRulesBroken := col_scan arr c val (Z.to_nat size) 0 areRulesBroken in
        if areRulesBroken =? 1 then
          Outcome (pre ++ [Printf ErrIllegalInsertion]) arr (Call size 0)
        else
          let arr1 := store arr r c val in
          let said := Printf (if val =? 0 then ValueCleared else ValueInserted) in
          let isGameWon := game_won arr1 size in
          if isGameWon =? 0 then
            Outcome (pre ++ [said]) arr1 (Call size 1)
          else if isGameWon =? 1 then
            Outcome (pre ++ [said; Printf GameCompleted;
                             DisplayLatinSquare arr1 size;
                             WriteLatinSquare arr1 size outFileName])
                    arr1 Return
          else Outcome (pre ++ [said]) arr1 Return in
      if negb (cell arr r c =? 0) then
        if cell arr r c <? 0 then
          if val =? 0 then
            Outcome (pre ++ [Printf ErrIllegalClear]) arr (Call size 0)
          else rules_and_insert
        else
          if val =? 0 then
            Outcome (pre ++ [Printf ValueCleared]) (store arr r c 0) (Call size 1)
          else
            Outcome (pre ++ [Printf ErrOccupied]) arr (Call size 0)
      else rules_and_insert
  end.

(** A run of [play] on the commands that standard input holds. *)
Record run : Type := Run {
  trace : list event;
  final : grid;
  returned : bool   (* [false]: still waiting for a command *)
}.

Fixpoint play (stdin : list scanned) (arr : grid) (size isDispNeeded : Z)
    (outFileName : string) : run :=
  match stdin with
  | [] => Run (prologue arr size isDispNeeded) arr false
  | input :: stdin' =>
      let o := play_body arr size isDispNeeded outFileName input in
      match next o with
      | Return => Run (emitted o) (after o) true
      | Call size' isDispNeeded' =>
          let r := play stdin' (after o) size' isDispNeeded' outFileName in
          Run (emitted o ++ trace r) (final r) (returned r)
      end
  end.

(** ** [readLatinSquare] *)

(** What [fscanf(fp, "%d", ...)] meets in the file: an integer or
    something that is not one. *)
Inductive token : Type :=
| TInt (z : Z)
| TJunk.

Definition fscanf_d (fp : list token) : option (Z * list token) :=
  match fp with
  | TInt z :: fp' => Some (z, fp')
  | _ => None
  end.

(** "first set all values of the array to zero" *)
Definition clear_all (latinSquare : grid) : grid :=
  fold_left
    (λ g i, fold_left (λ g' j, store g' i j 0) (seq 0 N) g)
    (seq 0 N) latinSquare.

(** Inner reading loop: [None] when [fscanf] does not deliver an integer;
    the array keeps what was read so far. *)
Fixpoint read_row (fp : list token) (latinSquare : grid) (i : nat)
    (n j : nat) : grid * option (list token) :=
  match n with
  | O => (latinSquare, Some fp)
  | S n' =>
      match fscanf_d fp with
      | None => (latinSquare, None)
      | Some (z, fp') => read_row fp' (store latinSquare i j z) i n' (S j)
      end
  end.

Fixpoint read_rows (fp : list token) (latinSquare : grid) (size : nat)
    (n i : nat) : grid * option (list token) :=
  match n with
  | O => (latinSquare, Some fp)
  | S n' =>
      match read_row fp latinSquare i size 0 with
      | (g, None) => (g, None)
      | (g, Some fp') => read_rows fp' g size n' (S i)
      end
  end.

(** [readLatinSquare]: the value returned, the messages printed and the
    array as the call leaves it.  [file] is [None] when the file cannot be
    opened. *)
Definition readLatinSquare (filename : string) (file : option (list token))
    (latinSquare : grid) : Z * list event * grid :=
  match file with
  | None => (-1, [Printf (ErrAccessFile filename)], latinSquare)
  | Some fp =>
      match fscanf_d fp with
      | None => (-1, [Printf ErrInvalidSize], latinSquare)
      | Some (n, fp') =>
          if (n <=? 0) || (n >? Z.of_nat N) then
            (-1, [Printf ErrInvalidSize], latinSquare)
          else
            match read_rows fp' (clear_all latinSquare)
                            (Z.to_nat n) (Z.to_nat n) 0 with
            | (g, None) => (-1, [Printf ErrInvalidData], g)
            | (g, Some _) => (n, [], g)
            end
      end
  end.

(** ** [main] *)

(** [snprintf(outFileName, 50, "out-%s", argv[1])] *)
Definition out_name (arg : string) : string :=
  substring 0 49 ("out-" ++ arg).

Definition main (argv : list string) (fs : string → option (list token))
    (stdin : list scanned) : Z * run :=
  match argv with
  | prog :: arg :: _ =>
      let '(n, said, latinSquare) := readLatinSquare arg (fs arg) zero_grid in
      if n =? -1 then
        (0, Run (said ++ [Printf (ErrReadFailed arg)]) latinSquare true)
      else
        let r := play stdin latinSquare n 1 (out_name arg) in
        (0, Run (said ++ trace r) (final r) (returned r))
  | prog :: [] => (1, Run [Printf (Usage prog)] zero_grid true)
  | [] => (1, Run [Printf (Usage "")] zero_grid true)
  end.

(** ** Properties of the board that the claims speak about *)

(** Rows and columns of the part of the array that is in use. *)
Definition in_use (size : Z) (r c : nat) : Prop :=
  (r < Z.to_nat size)%nat ∧ (c < Z.to_nat size)%nat.

(** No value occurs twice in a row, givens and entries compared by the
    number they show. *)
Definition rows_distinct (arr : grid) (size : Z) : Prop :=
  ∀ r c1 c2 : nat, in_use size r c1 → in_use size r c2 → c1 ≠ c2 →
    cell arr r c1 ≠ 0 → cell arr r c2 ≠ 0 →
    abs (cell arr r c1) ≠ abs (cell arr r c2).

Definition cols_distinct (arr : grid) (size : Z) : Prop :=
  ∀ c r1 r2 : nat, in_use size r1 c → in_use size r2 c → r1 ≠ r2 →
    cell arr r1 c ≠ 0 → cell arr r2 c ≠ 0 →
    abs (cell arr r1 c) ≠ abs (cell arr r2 c).

Definition no_duplicates (arr : grid) (size : Z) : Prop :=
  rows_distinct arr size ∧ cols_distinct arr size.

(** Every cell in use holds something. *)
Definition all_filled (arr : grid) (size : Z) : Prop :=
  ∀ r c : nat, in_use size r c → cell arr r c ≠ 0.

(** A command whose three numbers pass the range check of [play]. *)
Definition in_range (size i j val : Z) : Prop :=
  1 <= i <= size ∧ 1 <= j <= size ∧ 0 <= val <= size.

(** The messages of an outcome. *)
Definition said (o : outcome) (m : message) : Prop :=
  In (Printf m) (emitted o).

(** ** Sample boards and files *)

(** The top-left cell is a given [1], everything else is empty. *)
Definition given_one : grid := store zero_grid 0 0 (-1).

(** The top-left cell holds a [1] of the player's. *)
Definition entered_one : grid := store zero_grid 0 0 1.

(** A file for a 1 x 1 puzzle whose only cell is a given [1]. *)
Definition given_one_file : list token := [TInt 1; TInt (-1)].

(** A file for a 1 x 1 puzzle whose only cell is written as [1]. *)
Definition entered_one_file : list token := [TInt 1; TInt 1].

(** A file for a 1 x 1 puzzle whose only cell is written as [5]. *)
Definition five_file : list token := [TInt 1; TInt 5].

(** ** [writeLatinSquare] *)

(** What [writeLatinSquare] prints on the console. *)
Inductive write_message : Type :=
| UnableToGenerate (fileNameOut : string)  (* "Error : Unable to generate file %s to save the game!" *)
| SavingDone (fileNameOut : string).       (* "Saving to %s...\nDone" *)

(** The text of a file of numbers: its lines, each with the integers
    printed on it. *)
Abbreviation text := (list (list Z)).

(** Inner loop of [writeLatinSquare]: the cells of row [i], separated by
    blanks. *)
Fixpoint write_row (arr : grid) (i : nat) (n j : nat) : list Z :=
  match n with
  | O => []
  | S n' => cell arr i j :: write_row arr i n' (S j)
  end.

(** Outer loop: one line for each row. *)
Fixpoint write_rows (arr : grid) (size : nat) (n i : nat) : text :=
  match n with
  | O => []
  | S n' => write_row arr i size 0 :: write_rows arr size n' (S i)
  end.

(** [writeLatinSquare]: the console message and the text of the file.
    [writable] tells whether [fopen (fileNameOut, "w")] succeeds; when it
    does not, no file is written. *)
Definition writeLatinSquare (arr : grid) (size : Z) (fileNameOut : string)
    (writable : bool) : write_message * option text :=
  if writable then
    (SavingDone fileNameOut,
     Some ([size] :: write_rows arr (Z.to_nat size) (Z.to_nat size) 0))
  else (UnableToGenerate fileNameOut, None).

(** A text printed with "%d" as [fscanf "%d"] meets it again: the
    integers in their order, blanks and line ends skipped. *)
Definition tokens_of (t : text) : list token := map TInt (concat t).

(** ** More properties of boards, files and runs *)

(** Every integer of the file fits an [int]. *)
Definition int_tokens (fp : list token) : Prop :=
  Forall (λ t, match t with TInt z => is_int z | TJunk => True end) fp.

(** Every cell in use that holds something shows a number of [1 .. size]. *)
Definition values_in_range (arr : grid) (size : Z) : Prop :=
  ∀ r c, in_use size r c → cell arr r c ≠ 0 → 1 <= abs (cell arr r c) <= size.

(** Every number of [1 .. size] is shown exactly once in every row and in
    every column. *)
Definition latin_square (arr : grid) (size : Z) : Prop :=
  (∀ r v, (r < Z.to_nat size)%nat → 1 <= v <= size →
     ∃ c, in_use size r c ∧ abs (cell arr r c) = v ∧
          ∀ c', in_use size r c' → abs (cell arr r c') = v → c' = c) ∧
  (∀ c v, (c < Z.to_nat size)%nat → 1 <= v <= size →
     ∃ r, in_use size r c ∧ abs (cell arr r c) = v ∧
          ∀ r', in_use size r' c → abs (cell arr r' c) = v → r' = r).

Definition is_write (e : event) : bool :=
  match e with
  | WriteLatinSquare _ _ _ => true
  | _ => false
  end.

(** The cells outside the corner in use are empty. *)
Definition blank_outside (arr : grid) (size : Z) : Prop :=
  ∀ r c, ¬ in_use size r c → cell arr r c = 0.

(** ** Arithmetic of [int] *)

Lemma abs_small x : 0 <= x <= INT_MAX → abs x = x.
Proof.
  unfold INT_MAX, abs, wrap_int. intros Hx.
  rewrite Z.abs_eq by lia. rewrite Z.mod_small by lia. lia.
Qed.

Lemma abs_zero_iff x : is_int x → abs x = 0 ↔ x = 0.
Proof.
  unfold is_int, INT_MIN, INT_MAX, abs, wrap_int. intros Hx. split.
  - intros H. destruct (Z.eq_dec x (- 2 ^ 31)) as [->|Hne].
    + vm_compute in H. discriminate.
    + rewrite Z.mod_small in H by lia. lia.
  - intros ->. reflexivity.
Qed.

Lemma is_int_small size x : size <= Z.of_nat N → 0 <= x <= size → is_int x.
Proof. unfold is_int, INT_MIN, INT_MAX, N. lia. Qed.

(** ** Reading and writing cells *)

Lemma wf_grid_row arr r :
  wf_grid arr → (r < N)%nat →
  ∃ row, arr !! r = Some row ∧ length row = N ∧ Forall is_int row.
Proof.
  intros [Hlen Hrows] Hr.
  destruct (lookup_lt_is_Some_2 arr r) as [row Hrow]; [lia|].
  exists row. split; [done|].
  exact (proj1 (Forall_lookup _ _) Hrows r row Hrow).
Qed.

Lemma cell_store_eq arr r c v :
  wf_grid arr → (r < N)%nat → (c < N)%nat → cell (store arr r c v) r c = v.
Proof.
  intros Hwf Hr Hc. destruct (wf_grid_row arr r Hwf Hr) as (row & Hrow & Hlen & _).
  unfold cell, store. rewrite list_lookup_alter_eq, Hrow. simpl.
  rewrite list_lookup_insert_eq by lia. reflexivity.
Qed.

Lemma cell_store_ne arr r c v r' c' :
  r ≠ r' ∨ c ≠ c' → cell (store arr r c v) r' c' = cell arr r' c'.
Proof.
  intros Hne. unfold cell, store.
  destruct (decide (r = r')) as [<-|Hr].
  - rewrite list_lookup_alter_eq. destruct (arr !! r) as [row|]; simpl; [|done].
    rewrite list_lookup_insert_ne; [done|]. destruct Hne; congruence.
  - rewrite list_lookup_alter_ne by done. reflexivity.
Qed.

Lemma store_cell arr r c : store arr r c (cell arr r c) = arr.
Proof.
  unfold cell, store. apply list_eq. intros k.
  destruct (decide (r = k)) as [<-|Hk].
  - rewrite list_lookup_alter_eq. destruct (arr !! r) as [row|]; simpl; [|done].
    f_equal. apply list_insert_id'. intros Hc.
    destruct (lookup_lt_is_Some_2 row c Hc) as [x ->]. reflexivity.
  - rewrite list_lookup_alter_ne by done. reflexivity.
Qed.

Lemma store_store arr r c v w : store (store arr r c v) r c w = store arr r c w.
Proof.
  unfold store. rewrite list_alter_alter_eq. apply list_alter_ext; [|done].
  intros row _. simpl. apply list_insert_insert_eq.
Qed.

Lemma wf_grid_store arr r c v : wf_grid arr → is_int v → wf_grid (store arr r c v).
Proof.
  intros [Hlen Hrows] Hv. unfold store. split.
  - rewrite length_alter. exact Hlen.
  - apply Forall_alter; [exact Hrows|]. intros row _ [Hl Hi]. split.
    + rewrite length_insert. exact Hl.
    + apply Forall_insert; assumption.
Qed.

Lemma cell_is_int arr r c : wf_grid arr → is_int (cell arr r c).
Proof.
  intros [_ Hrows]. unfold cell.
  destruct (arr !! r) as [row|] eqn:Hrow; simpl; [|unfold is_int, INT_MIN, INT_MAX; lia].
  destruct (row !! c) as [x|] eqn:Hx; simpl; [|unfold is_int, INT_MIN, INT_MAX; lia].
  pose proof (proj1 (Forall_lookup _ _) Hrows r row Hrow) as [_ Hi].
  exact (proj1 (Forall_lookup _ _) Hi c x Hx).
Qed.

Lemma wf_zero_grid : wf_grid zero_grid.
Proof.
  split; [reflexivity|]. unfold zero_grid, N. simpl.
  repeat (constructor; [split; [reflexivity|];
    repeat (constructor; [unfold is_int, INT_MIN, INT_MAX; lia|]); constructor|]).
  constructor.
Qed.

(** ** The loops of [play] *)

Lemma row_scan_spec arr r val n t b :
  (row_scan arr r val n t b = 1 ∧
   ∃ k, (t <= k < t + n)%nat ∧ cell arr r k ≠ 0 ∧ abs (cell arr r k) = val)
  ∨ (row_scan arr r val n t b = b ∧
     ∀ k, (t <= k < t + n)%nat → cell arr r k = 0 ∨ abs (cell arr r k) ≠ val).
Proof.
  revert t. induction n as [|n IH]; intros t; simpl.
  - right. split; [reflexivity|]. intros k Hk. lia.
  - destruct (cell arr r t =? 0) eqn:Hz; [|destruct (abs (cell arr r t) =? val) eqn:Hv].
    + destruct (IH (S t)) as [(E & k & Hk & Hk')|(E & Hall)].
      * left. split; [exact E|]. exists k. split; [lia|exact Hk'].
      * right. split; [exact E|]. intros k Hk.
        destruct (decide (k = t)) as [->|Hne]; [left; lia|apply Hall; lia].
    + left. split; [reflexivity|]. exists t. split; [lia|]. split; lia.
    + destruct (IH (S t)) as [(E & k & Hk & Hk')|(E & Hall)].
      * left. split; [exact E|]. exists k. split; [lia|exact Hk'].
      * right. split; [exact E|]. intros k Hk.
        destruct (decide (k = t)) as [->|Hne]; [right; lia|apply Hall; lia].
Qed.

Lemma col_scan_spec arr c val n t b :
  (col_scan arr c val n t b = 1 ∧
   ∃ k, (t <= k < t + n)%nat ∧ cell arr k c ≠ 0 ∧ abs (cell arr k c) = val)
  ∨ (col_scan arr c val n t b = b ∧
     ∀ k, (t <= k < t + n)%nat → cell arr k c = 0 ∨ abs (cell arr k c) ≠ val).
Proof.
  revert t. induction n as [|n IH]; intros t; simpl.
  - right. split; [reflexivity|]. intros k Hk. lia.
  - destruct (cell arr t c =? 0) eqn:Hz; [|destruct (abs (cell arr t c) =? val) eqn:Hv].
    + destruct (IH (S t)) as [(E & k & Hk & Hk')|(E & Hall)].
      * left. split; [exact E|]. exists k. split; [lia|exact Hk'].
      * right. split; [exact E|]. intros k Hk.
        destruct (decide (k = t)) as [->|Hne]; [left; lia|apply Hall; lia].
    + left. split; [reflexivity|]. exists t. split; [lia|]. split; lia.
    + destruct (IH (S t)) as [(E & k & Hk & Hk')|(E & Hall)].
      * left. split; [exact E|]. exists k. split; [lia|exact Hk'].
      * right. split; [exact E|]. intros k Hk.
        destruct (decide (k = t)) as [->|Hne]; [right; lia|apply Hall; lia].
Qed.

(** The two scans together: the flag stays down exactly when neither the
    row nor the column shows [val]. *)
Lemma scans_clear arr r c val size :
  col_scan arr c val size 0 (row_scan arr r val size 0 0) ≠ 1 →
  (∀ k, (k < size)%nat → cell arr r k = 0 ∨ abs (cell arr r k) ≠ val) ∧
  (∀ k, (k < size)%nat → cell arr k c = 0 ∨ abs (cell arr k c) ≠ val).
Proof.
  intros H.
  destruct (row_scan_spec arr r val size 0 0) as [(E & _)|(E & Hrow)];
    rewrite E in H;
    destruct (col_scan_spec arr c val size 0 1) as [(E1 & _)|(E1 & _)];
    destruct (col_scan_spec arr c val size 0 0) as [(E0 & _)|(E0 & Hcol)];
    try congruence.
  all: split; intros k Hk; [apply Hrow|apply Hcol]; lia.
Qed.

Lemma scans_zero arr r c size :
  wf_grid arr → col_scan arr c 0 size 0 (row_scan arr r 0 size 0 0) = 0.
Proof.
  intros Hwf.
  assert (Hrow : row_scan arr r 0 size 0 0 = 0).
  { destruct (row_scan_spec arr r 0 size 0 0) as [(_ & k & _ & Hk & Ha)|(E & _)];
      [|exact E].
    apply (abs_zero_iff _ (cell_is_int arr r k Hwf)) in Ha. contradiction. }
  rewrite Hrow.
  destruct (col_scan_spec arr c 0 size 0 0) as [(_ & k & _ & Hk & Ha)|(E & _)];
    [|exact E].
  apply (abs_zero_iff _ (cell_is_int arr k c Hwf)) in Ha. contradiction.
Qed.

Lemma won_row_spec arr i n j b :
  (won_row arr i n j b = 0 ∧ ∃ k, (j <= k < j + n)%nat ∧ cell arr i k = 0)
  ∨ (won_row arr i n j b = b ∧ ∀ k, (j <= k < j + n)%nat → cell arr i k ≠ 0).
Proof.
  revert j. induction n as [|n IH]; intros j; simpl.
  - right. split; [reflexivity|]. intros k Hk. lia.
  - destruct (cell arr i j =? 0) eqn:Hz.
    + left. split; [reflexivity|]. exists j. split; lia.
    + destruct (IH (S j)) as [(E & k & Hk & Hk')|(E & Hall)].
      * left. split; [exact E|]. exists k. split; [lia|exact Hk'].
      * right. split; [exact E|]. intros k Hk.
        destruct (decide (k = j)) as [->|Hne]; [lia|apply Hall; lia].
Qed.

Lemma won_rows_down arr size n i : won_rows arr size n i 0 = 0.
Proof. destruct n; reflexivity. Qed.

Lemma won_rows_spec arr size n i :
  (won_rows arr size n i 1 = 0 ∧
   ∃ r c, (i <= r < i + n)%nat ∧ (c < size)%nat ∧ cell arr r c = 0)
  ∨ (won_rows arr size n i 1 = 1 ∧
     ∀ r c, (i <= r < i + n)%nat → (c < size)%nat → cell arr r c ≠ 0).
Proof.
  revert i. induction n as [|n IH]; intros i; simpl.
  - right. split; [reflexivity|]. intros r c Hr. lia.
  - destruct (won_row_spec arr i size 0 1) as [(E & k & Hk & Hk')|(E & Hall)];
      rewrite E.
    + left. split; [apply won_rows_down|]. exists i, k. split; [lia|]. split; [lia|exact Hk'].
    + destruct (IH (S i)) as [(E' & r & c & Hr & Hc & Hz)|(E' & Hall')].
      * left. split; [exact E'|]. exists r, c. split; [lia|]. split; assumption.
      * right. split; [exact E'|]. intros r c Hr Hc.
        destruct (decide (r = i)) as [->|Hne]; [apply Hall; lia|apply Hall'; lia].
Qed.

Lemma game_won_cases arr size :
  (game_won arr size = 0 ∧ ¬ all_filled arr size)
  ∨ (game_won arr size = 1 ∧ all_filled arr size).
Proof.
  unfold game_won, all_filled, in_use.
  destruct (won_rows_spec arr (Z.to_nat size) (Z.to_nat size) 0)
    as [(E & r & c & Hr & Hc & Hz)|(E & Hall)].
  - left. split; [exact E|]. intros H. apply (H r c); [split; lia|exact Hz].
  - right. split; [exact E|]. intros r c [Hr Hc]. apply Hall; lia.
Qed.

(** ** One command *)

Lemma said_prologue arr size d m l :
  In (Printf m) (prologue arr size d ++ l) → In (Printf m) l.
Proof.
  unfold prologue. destruct (d =? 1); simpl; [|tauto].
  intros [H|[H|H]]; [discriminate|discriminate|exact H].
Qed.

(** Case analysis along the branches of [play_body]. *)
Ltac play_branches :=
  unfold said, play_body in *; cbv zeta in *;
  repeat match goal with
         | |- context [if ?b then _ else _] => destruct b eqn:?
         | H : context [if ?b then _ else _] |- _ => destruct b eqn:?
         end;
  simpl emitted in *; simpl after in *; simpl next in *.

(** What a message that was printed can be, once the display is set aside. *)
Ltac said_inv H :=
  apply said_prologue in H; simpl in H;
  repeat match type of H with
         | _ ∨ _ => destruct H as [H|H]
         | False => contradiction
         end;
  try discriminate H; try (injection H as H; subst).

(** C9: a command that [play] answers with an error message (wrong
    format, out of range, illegal clear, occupied cell, illegal insertion)
    leaves the whole array as it was: every test comes before the one
    assignment to the array. *)
Theorem play_error_keeps_grid arr size isDispNeeded outFileName input m :
  said (play_body arr size isDispNeeded outFileName input) m →
  is_error m = true →
  after (play_body arr size isDispNeeded outFileName input) = arr.
Proof.
  intros Hsaid Herr. destruct input as [i j val|].
  - play_branches; try reflexivity; said_inv Hsaid; discriminate Herr.
  - reflexivity.
Qed.

(** [play] on a non-empty input, unfolded once. *)
Lemma play_cons input stdin arr size d f :
  play (input :: stdin) arr size d f
  = match next (play_body arr size d f input) with
    | Return => Run (emitted (play_body arr size d f input))
                    (after (play_body arr size d f input)) true
    | Call size' d' =>
        Run (emitted (play_body arr size d f input)
             ++ trace (play stdin (after (play_body arr size d f input)) size' d' f))
            (final (play stdin (after (play_body arr size d f input)) size' d' f))
            (returned (play stdin (after (play_body arr size d f input)) size' d' f))
    end.
Proof. reflexivity. Qed.

(** C10: when a value is inserted or a cell is cleared at [(i, j)], the
    array differs from the old one in that single cell at most, and the
    size handed on to the next activation of [play] and to
    [writeLatinSquare] is the one received. *)
Theorem play_success_frame arr size isDispNeeded outFileName i j val :
  let o := play_body arr size isDispNeeded outFileName (Scan3 i j val) in
  said o ValueInserted ∨ said o ValueCleared →
  (∃ v, after o = store arr (Z.to_nat (i - 1)) (Z.to_nat (j - 1)) v) ∧
  (∀ r c, r ≠ Z.to_nat (i - 1) ∨ c ≠ Z.to_nat (j - 1) →
     cell (after o) r c = cell arr r c) ∧
  (∀ size' d', next o = Call size' d' → size' = size) ∧
  (∀ a s f, In (WriteLatinSquare a s f) (emitted o) → s = size).
Proof.
  intros o Hsaid.
  assert (Hstore : ∃ v, after o = store arr (Z.to_nat (i - 1)) (Z.to_nat (j - 1)) v).
  { subst o. destruct Hsaid as [Hsaid|Hsaid]; play_branches;
      try (said_inv Hsaid; fail); eexists; reflexivity. }
  split; [exact Hstore|]. split; [|split].
  - destruct Hstore as [v ->]. intros r c Hne.
    apply cell_store_ne. destruct Hne; [left|right]; congruence.
  - intros size' d' Hnext. subst o. clear Hsaid Hstore.
    play_branches; congruence.
  - intros a s f Hin. subst o. clear Hsaid Hstore.
    play_branches; apply in_app_or in Hin; destruct Hin as [Hin|Hin];
      try (unfold prologue in Hin; destruct (isDispNeeded =? 1); simpl in Hin);
      simpl in Hin; intuition congruence.
Qed.

(** C3: the winning test answers 1 exactly when no cell in use is empty,
    and right after a value was inserted [play] returns, announcing the
    end and writing the array out, exactly when the test answers 1;
    otherwise it calls itself for the next command.  So a run of [play]
    whose first command inserts a value is over after that command
    exactly when the board is full. *)
Theorem win_check_after_fill arr size isDispNeeded outFileName i j val :
  let o := play_body arr size isDispNeeded outFileName (Scan3 i j val) in
  (game_won arr size = 1 ↔ all_filled arr size) ∧
  (said o ValueInserted →
     (all_filled (after o) size ↔ next o = Return) ∧
     (all_filled (after o) size →
        emitted o = prologue arr size isDispNeeded ++
          [Printf ValueInserted; Printf GameCompleted;
           DisplayLatinSquare (after o) size;
           WriteLatinSquare (after o) size outFileName]) ∧
     (¬ all_filled (after o) size →
        emitted o = prologue arr size isDispNeeded ++ [Printf ValueInserted] ∧
        next o = Call size 1) ∧
     (∀ stdin,
        returned (play (Scan3 i j val :: stdin) arr size isDispNeeded outFileName)
        = if game_won (after o) size =? 1 then true
          else returned (play stdin (after o) size 1 outFileName))).
Proof.
  intros o. split.
  - destruct (game_won_cases arr size) as [[E H]|[E H]]; rewrite E; split;
      intros; try discriminate; try contradiction; auto.
  - intros Hsaid.
    assert (Hstep : (all_filled (after o) size ↔ next o = Return) ∧
      (all_filled (after o) size →
         emitted o = prologue arr size isDispNeeded ++
           [Printf ValueInserted; Printf GameCompleted;
            DisplayLatinSquare (after o) size;
            WriteLatinSquare (after o) size outFileName]) ∧
      (¬ all_filled (after o) size →
         emitted o = prologue arr size isDispNeeded ++ [Printf ValueInserted] ∧
         next o = Call size 1)).
    { subst o. play_branches; try (said_inv Hsaid; fail);
        match goal with
        | H : (game_won ?a ?s =? _) = _ |- _ =>
            destruct (game_won_cases a s) as [[E Hf]|[E Hf]]; rewrite E in *;
            try discriminate
        end;
        (split; [split; intros; try discriminate; try contradiction; auto|]);
        (split; intros; try contradiction; auto). }
    destruct Hstep as (Hiff & Hwon & Hnot).
    split; [exact Hiff|]. split; [exact Hwon|]. split; [exact Hnot|].
    intros stdin. rewrite play_cons. fold o.
    destruct (game_won_cases (after o) size) as [[E Hf]|[E Hf]]; rewrite E; simpl.
    + destruct (Hnot Hf) as [_ ->]. reflexivity.
    + rewrite (proj1 Hiff Hf). reflexivity.
Qed.

(** ** Uniqueness in rows and columns *)

Lemma in_use_bound size r c :
  size <= Z.of_nat N → in_use size r c → (r < N)%nat ∧ (c < N)%nat.
Proof. unfold in_use. lia. Qed.

Lemma in_use_command size i j :
  1 <= i <= size → 1 <= j <= size →
  in_use size (Z.to_nat (i - 1)) (Z.to_nat (j - 1)).
Proof. unfold in_use. lia. Qed.

(** Writing a value that neither the row nor the column shows. *)
Lemma store_keeps_no_duplicates arr size r c val :
  wf_grid arr → size <= Z.of_nat N → in_use size r c → 1 <= val <= size →
  (∀ k, (k < Z.to_nat size)%nat → cell arr r k = 0 ∨ abs (cell arr r k) ≠ val) →
  (∀ k, (k < Z.to_nat size)%nat → cell arr k c = 0 ∨ abs (cell arr k c) ≠ val) →
  no_duplicates arr size → no_duplicates (store arr r c val) size.
Proof.
  intros Hwf Hsize Hrc Hval Hrow Hcol [Hrows Hcols].
  destruct (in_use_bound size r c Hsize Hrc) as [Hr Hc].
  assert (Habs : abs val = val).
  { apply abs_small. unfold INT_MAX, N in *. lia. }
  assert (Hnew : cell (store arr r c val) r c = val) by (apply cell_store_eq; assumption).
  split.
  - intros r' c1 c2 [Hr1 Hc1] [_ Hc2] Hne.
    destruct (decide (r' = r)) as [->|Hrne].
    + destruct (decide (c1 = c)) as [->|Hc1ne]; [|destruct (decide (c2 = c)) as [->|Hc2ne]].
      * rewrite Hnew, Habs, (cell_store_ne arr r c val r c2) by (right; congruence).
        intros _ Hnz Heq. destruct (Hrow c2 Hc2) as [H|H]; [contradiction|congruence].
      * rewrite Hnew, Habs, (cell_store_ne arr r c val r c1) by (right; congruence).
        intros Hnz _ Heq. destruct (Hrow c1 Hc1) as [H|H]; [contradiction|congruence].
      * rewrite !(cell_store_ne arr r c val r) by (right; congruence).
        apply Hrows; [split; assumption|split; assumption|assumption].
    + rewrite !(cell_store_ne arr r c val r') by (left; congruence).
      apply Hrows; [split; assumption|split; assumption|assumption].
  - intros c' r1 r2 [Hr1 Hc1] [Hr2 _] Hne.
    destruct (decide (c' = c)) as [->|Hcne].
    + destruct (decide (r1 = r)) as [->|Hr1ne]; [|destruct (decide (r2 = r)) as [->|Hr2ne]].
      * rewrite Hnew, Habs, (cell_store_ne arr r c val r2 c) by (left; congruence).
        intros _ Hnz Heq. destruct (Hcol r2 Hr2) as [H|H]; [contradiction|congruence].
      * rewrite Hnew, Habs, (cell_store_ne arr r c val r1 c) by (left; congruence).
        intros Hnz _ Heq. destruct (Hcol r1 Hr1) as [H|H]; [contradiction|congruence].
      * rewrite !(cell_store_ne arr r c val _ c) by (left; congruence).
        apply Hcols; [split; assumption|split; assumption|assumption].
    + rewrite !(cell_store_ne arr r c val _ c') by (right; congruence).
      apply Hcols; [split; assumption|split; assumption|assumption].
Qed.

(** Emptying a cell. *)
Lemma clear_keeps_no_duplicates arr size r c :
  wf_grid arr → size <= Z.of_nat N → in_use size r c →
  no_duplicates arr size → no_duplicates (store arr r c 0) size.
Proof.
  intros Hwf Hsize Hrc [Hrows Hcols].
  destruct (in_use_bound size r c Hsize Hrc) as [Hr Hc].
  assert (Hnew : cell (store arr r c 0) r c = 0) by (apply cell_store_eq; assumption).
  assert (Hold : ∀ r' c', cell (store arr r c 0) r' c' ≠ 0 →
                          cell (store arr r c 0) r' c' = cell arr r' c').
  { intros r' c' Hnz. destruct (decide (r = r')) as [<-|Hr'];
      [destruct (decide (c = c')) as [<-|Hc']|].
    - contradiction.
    - apply cell_store_ne. right. exact Hc'.
    - apply cell_store_ne. left. exact Hr'. }
  split.
  - intros r' c1 c2 H1 H2 Hne Hz1 Hz2.
    pose proof (Hold _ _ Hz1) as E1. pose proof (Hold _ _ Hz2) as E2.
    rewrite E1 in Hz1 |- *. rewrite E2 in Hz2 |- *. apply Hrows; assumption.
  - intros c' r1 r2 H1 H2 Hne Hz1 Hz2.
    pose proof (Hold _ _ Hz1) as E1. pose proof (Hold _ _ Hz2) as E2.
    rewrite E1 in Hz1 |- *. rewrite E2 in Hz2 |- *. apply Hcols; assumption.
Qed.

(** Whatever the command, [play] hands on an array without duplicates
    when it received one. *)
Lemma play_body_keeps_no_duplicates arr size d f input :
  wf_grid arr → size <= Z.of_nat N → no_duplicates arr size →
  no_duplicates (after (play_body arr size d f input)) size.
Proof.
  intros Hwf Hsize Hinv. destruct input as [i j val|]; [|exact Hinv].
  play_branches; try exact Hinv;
    repeat match goal with
           | H : (_ || _) = false |- _ => apply orb_false_elim in H; destruct H
           end;
    try (apply clear_keeps_no_duplicates; try assumption; apply in_use_command; lia);
    (destruct (Z.eq_dec val 0) as [->|Hnz];
     [apply clear_keeps_no_duplicates; try assumption; apply in_use_command; lia|]);
    (apply store_keeps_no_duplicates; try assumption;
     [apply in_use_command; lia|lia|apply (scans_clear arr _ (Z.to_nat (j - 1))); lia
     |apply (scans_clear arr (Z.to_nat (i - 1))); lia]).
Qed.

(** C2: a placement that [play] accepts ("Value Inserted!") on an array
    without duplicates in its rows and columns yields an array without
    duplicates in its rows and columns. *)
Theorem placement_keeps_no_duplicates arr size isDispNeeded outFileName i j val :
  wf_grid arr → size <= Z.of_nat N → no_duplicates arr size →
  said (play_body arr size isDispNeeded outFileName (Scan3 i j val)) ValueInserted →
  no_duplicates (after (play_body arr size isDispNeeded outFileName (Scan3 i j val))) size.
Proof.
  intros Hwf Hsize Hinv _. apply play_body_keeps_no_duplicates; assumption.
Qed.

(** ** Commands on empty, given and entered cells *)

Section Commands.

Variables (arr : grid) (size isDispNeeded : Z) (outFileName : string).
Variables (i j : Z).

Let r := Z.to_nat (i - 1).
Let c := Z.to_nat (j - 1).
Let pre := prologue arr size isDispNeeded.

(** Clearing a cell the player entered. *)
Lemma clear_entered :
  in_range size i j 0 → 0 < cell arr r c →
  play_body arr size isDispNeeded outFileName (Scan3 i j 0)
  = Outcome (pre ++ [Printf ValueCleared]) (store arr r c 0) (Call size 1).
Proof.
  subst r c pre. intros (Hi & Hj & Hv) Hcell.
  play_branches; try reflexivity; lia.
Qed.

(** Clearing a given. *)
Lemma clear_given :
  in_range size i j 0 → cell arr r c < 0 →
  play_body arr size isDispNeeded outFileName (Scan3 i j 0)
  = Outcome (pre ++ [Printf ErrIllegalClear]) arr (Call size 0).
Proof.
  subst r c pre. intros (Hi & Hj & Hv) Hcell.
  play_branches; try reflexivity; lia.
Qed.

(** Writing into a cell the player entered. *)
Lemma place_on_entered val :
  in_range size i j val → val ≠ 0 → 0 < cell arr r c →
  play_body arr size isDispNeeded outFileName (Scan3 i j val)
  = Outcome (pre ++ [Printf ErrOccupied]) arr (Call size 0).
Proof.
  subst r c pre. intros (Hi & Hj & Hv) Hval Hcell.
  play_branches; try reflexivity; lia.
Qed.

(** Clearing an empty cell runs through the rule check and the
    assignment, which writes the [0] that is there already. *)
Lemma clear_empty :
  wf_grid arr → in_range size i j 0 → cell arr r c = 0 →
  play_body arr size isDispNeeded outFileName (Scan3 i j 0)
  = Outcome (pre ++ [Printf ValueCleared]) arr (Call size 1).
Proof.
  subst r c pre. intros Hwf (Hi & Hj & Hv) Hcell.
  assert (Hsame : store arr (Z.to_nat (i - 1)) (Z.to_nat (j - 1)) 0 = arr).
  { rewrite <- Hcell at 1. apply store_cell. }
  assert (Hscan := scans_zero arr (Z.to_nat (i - 1)) (Z.to_nat (j - 1))
                     (Z.to_nat size) Hwf).
  assert (Hwon : game_won arr size = 0).
  { destruct (game_won_cases arr size) as [[E _]|[_ Hfull]]; [exact E|].
    exfalso. apply (Hfull (Z.to_nat (i - 1)) (Z.to_nat (j - 1))); [|exact Hcell].
    apply in_use_command; lia. }
  unfold play_body; cbv zeta. rewrite Hsame, Hscan, Hwon, Hcell. simpl.
  repeat match goal with
         | |- context [if ?b then _ else _] => destruct b eqn:?
         end; try reflexivity; lia.
Qed.

(** What "Value Inserted!" tells about the command and the array. *)
Lemma inserted_inv val :
  said (play_body arr size isDispNeeded outFileName (Scan3 i j val)) ValueInserted →
  in_range size i j val ∧ val ≠ 0 ∧ cell arr r c <= 0 ∧
  after (play_body arr size isDispNeeded outFileName (Scan3 i j val))
  = store arr r c val.
Proof.
  subst r c pre. intros Hsaid.
  play_branches; try (said_inv Hsaid; fail);
    (split; [unfold in_range; lia|]); (split; [lia|]); (split; [lia|reflexivity]).
Qed.

End Commands.

(** C8: after a value was inserted into an empty cell, the command that
    clears the same cell is accepted and gives back the array as it was
    before the insertion. *)
Theorem place_then_clear_roundtrip arr size d d' outFileName i j val :
  wf_grid arr → size <= Z.of_nat N →
  cell arr (Z.to_nat (i - 1)) (Z.to_nat (j - 1)) = 0 →
  let o := play_body arr size d outFileName (Scan3 i j val) in
  said o ValueInserted →
  let o' := play_body (after o) size d' outFileName (Scan3 i j 0) in
  emitted o' = prologue (after o) size d' ++ [Printf ValueCleared] ∧
  after o' = arr ∧
  next o' = Call size 1.
Proof.
  intros Hwf Hsize Hempty o Hsaid o'.
  destruct (inserted_inv arr size d outFileName i j val Hsaid)
    as ((Hi & Hj & Hv) & Hnz & _ & Hafter).
  fold o in Hafter. subst o'. rewrite Hafter.
  rewrite clear_entered.
  - simpl. split; [reflexivity|]. split; [|reflexivity].
    rewrite store_store. rewrite <- Hempty at 1. apply store_cell.
  - unfold in_range. lia.
  - rewrite cell_store_eq; [lia|exact Hwf|unfold N in *; lia|unfold N in *; lia].
Qed.

(** ** Loading *)

Lemma fold_left_keeps {A B : Type} (P : A → Prop) (f : A → B → A) (l : list B) a :
  (∀ x y, P x → P (f x y)) → P a → P (fold_left f l a).
Proof.
  intros Hf. revert a. induction l as [|b l IH]; intros a Ha; simpl; [exact Ha|].
  apply IH, Hf, Ha.
Qed.

Lemma wf_clear_all g : wf_grid g → wf_grid (clear_all g).
Proof.
  intros Hwf. unfold clear_all.
  apply (fold_left_keeps wf_grid); [|exact Hwf]. intros g1 r Hg1.
  apply (fold_left_keeps wf_grid); [|exact Hg1]. intros g2 c Hg2.
  apply wf_grid_store; [exact Hg2|]. unfold is_int, INT_MIN, INT_MAX. lia.
Qed.

(** A row of [n] integers is read into columns [j .. j+n-1] of row [i]. *)
Lemma read_row_ok n : ∀ vs rest g i j,
  length vs = n →
  ∃ g', read_row (map TInt vs ++ rest) g i n j = (g', Some rest) ∧
    (wf_grid g → Forall is_int vs → (i < N)%nat → (j + n <= N)%nat →
     wf_grid g' ∧
     (∀ k, (k < n)%nat → cell g' i (j + k) = default 0 (vs !! k)) ∧
     (∀ r c, ¬ (r = i ∧ (j <= c < j + n)%nat) → cell g' r c = cell g r c)).
Proof.
  induction n as [|n IH]; intros vs rest g i j Hlen.
  - destruct vs; [|discriminate]. exists g. split; [reflexivity|].
    intros Hwf _ _ _. split; [exact Hwf|]. split; [intros k Hk; lia|reflexivity].
  - destruct vs as [|v vs]; [discriminate|]. simpl in Hlen.
    destruct (IH vs rest (store g i j v) i (S j)) as (g' & Hread & Hspec); [lia|].
    exists g'. split; [exact Hread|].
    intros Hwf Hint Hi Hj. inversion Hint as [|? ? Hv Hvs]; subst.
    destruct Hspec as (Hwf' & Hin & Hout);
      [apply wf_grid_store; assumption|assumption|assumption|lia|].
    split; [exact Hwf'|]. split.
    + intros [|k] Hk.
      * rewrite Hout by lia. replace (j + 0)%nat with j by lia.
        apply cell_store_eq; [assumption|assumption|lia].
      * replace (j + S k)%nat with (S j + k)%nat by lia. simpl. apply Hin. lia.
    + intros r c Hrc. rewrite Hout by lia. apply cell_store_ne.
      destruct (decide (i = r)) as [<-|]; [right; lia|left; assumption].
Qed.

(** With fewer than [n] integers ahead the inner loop gives up. *)
Lemma read_row_fail n : ∀ vs rest g i j,
  (length vs < n)%nat → fscanf_d rest = None →
  ∃ g', read_row (map TInt vs ++ rest) g i n j = (g', None).
Proof.
  induction n as [|n IH]; intros vs rest g i j Hlen Hrest; [lia|].
  destruct vs as [|v vs]; simpl in *.
  - rewrite Hrest. eexists; reflexivity.
  - apply IH; [lia|exact Hrest].
Qed.

Lemma map_take_drop (vs : list Z) (rest : list token) k :
  map TInt vs ++ rest = map TInt (take k vs) ++ (map TInt (drop k vs) ++ rest).
Proof. rewrite app_assoc, <- map_app, firstn_skipn. reflexivity. Qed.

(** [n] rows of [size] integers are read into rows [i .. i+n-1]. *)
Lemma read_rows_ok size n : ∀ vs rest g i,
  length vs = (n * size)%nat →
  ∃ g', read_rows (map TInt vs ++ rest) g size n i = (g', Some rest) ∧
    (wf_grid g → Forall is_int vs → (i + n <= N)%nat → (size <= N)%nat →
     wf_grid g' ∧
     (∀ a b, (a < n)%nat → (b < size)%nat →
        cell g' (i + a) b = default 0 (vs !! (a * size + b)%nat)) ∧
     (∀ r c, ¬ ((i <= r < i + n)%nat ∧ (c < size)%nat) → cell g' r c = cell g r c)).
Proof.
  induction n as [|n IH]; intros vs rest g i Hlen.
  - destruct vs; [|discriminate]. exists g. split; [reflexivity|].
    intros Hwf _ _ _. split; [exact Hwf|]. split; [intros a b Ha; lia|reflexivity].
  - rewrite (map_take_drop vs rest size). simpl.
    destruct (read_row_ok size (take size vs) (map TInt (drop size vs) ++ rest) g i 0)
      as (g1 & Hrow & Hspec1); [rewrite length_take; lia|].
    rewrite Hrow.
    destruct (IH (drop size vs) rest g1 (S i)) as (g' & Hread & Hspec);
      [rewrite length_drop; lia|].
    exists g'. split; [exact Hread|].
    intros Hwf Hint Hi Hsize.
    destruct Hspec1 as (Hwf1 & Hin1 & Hout1);
      [assumption|apply Forall_take; assumption|lia|lia|].
    destruct Hspec as (Hwf' & Hin & Hout);
      [assumption|apply Forall_drop; assumption|lia|lia|].
    split; [exact Hwf'|]. split.
    + intros [|a] b Ha Hb.
      * rewrite Hout by lia. replace (i + 0)%nat with i by lia.
        pose proof (Hin1 b Hb) as Hb1. simpl in Hb1. rewrite Hb1.
        rewrite lookup_take_lt by lia. reflexivity.
      * replace (i + S a)%nat with (S i + a)%nat by lia.
        rewrite Hin by lia. rewrite lookup_drop. do 2 f_equal. lia.
    + intros r c Hrc. rewrite Hout by lia. apply Hout1. lia.
Qed.

(** With fewer than [n * size] integers ahead the reading loops give up. *)
Lemma read_rows_fail size n : ∀ vs rest g i,
  (length vs < n * size)%nat → fscanf_d rest = None →
  ∃ g', read_rows (map TInt vs ++ rest) g size n i = (g', None).
Proof.
  induction n as [|n IH]; intros vs rest g i Hlen Hrest; [lia|]. simpl.
  destruct (Nat.lt_ge_cases (length vs) size) as [Hshort|Hlong].
  - destruct (read_row_fail size vs rest g i 0 Hshort Hrest) as (g' & ->).
    eexists; reflexivity.
  - rewrite (map_take_drop vs rest size).
    destruct (read_row_ok size (take size vs) (map TInt (drop size vs) ++ rest) g i 0)
      as (g1 & -> & _); [rewrite length_take; lia|].
    apply IH; [rewrite length_drop; lia|exact Hrest].
Qed.

(** A file with an accepted size and [n * n] integers behind it. *)
Lemma readLatinSquare_ok filename n vs rest latinSquare :
  1 <= n <= Z.of_nat N → length vs = (Z.to_nat n * Z.to_nat n)%nat →
  ∃ g, readLatinSquare filename (Some (TInt n :: map TInt vs ++ rest)) latinSquare
       = (n, [], g) ∧
    (wf_grid latinSquare → Forall is_int vs →
     wf_grid g ∧
     ∀ r c, in_use n r c →
       cell g r c = default 0 (vs !! (r * Z.to_nat n + c)%nat)).
Proof.
  intros Hn Hlen. unfold readLatinSquare, fscanf_d.
  replace ((n <=? 0) || (n >? Z.of_nat N)) with false by lia.
  destruct (read_rows_ok (Z.to_nat n) (Z.to_nat n) vs rest (clear_all latinSquare) 0 Hlen)
    as (g & -> & Hspec).
  exists g. split; [reflexivity|]. intros Hwf Hint.
  destruct Hspec as (Hwf' & Hin & _); [apply wf_clear_all, Hwf|exact Hint|lia|lia|].
  split; [exact Hwf'|]. intros r c [Hr Hc]. exact (Hin r c Hr Hc).
Qed.

(** A file with an accepted size and too few integers behind it. *)
Lemma readLatinSquare_short filename n vs rest latinSquare :
  1 <= n <= Z.of_nat N → (length vs < Z.to_nat n * Z.to_nat n)%nat →
  fscanf_d rest = None →
  ∃ g, readLatinSquare filename (Some (TInt n :: map TInt vs ++ rest)) latinSquare
       = (-1, [Printf ErrInvalidData], g).
Proof.
  intros Hn Hlen Hrest. unfold readLatinSquare, fscanf_d at 1.
  replace ((n <=? 0) || (n >? Z.of_nat N)) with false by lia.
  destruct (read_rows_fail (Z.to_nat n) (Z.to_nat n) vs rest (clear_all latinSquare) 0
              Hlen Hrest) as (g & ->).
  exists g. reflexivity.
Qed.

(** A given is left alone by every clear command and by every command
    aimed at another cell. *)
Lemma given_survives arr size d f i j input :
  1 <= i → 1 <= j → cell arr (Z.to_nat (i - 1)) (Z.to_nat (j - 1)) < 0 →
  match input with
  | Scan3 i' j' val' => val' = 0 ∨ i' ≠ i ∨ j' ≠ j
  | ScanFail => True
  end →
  cell (after (play_body arr size d f input)) (Z.to_nat (i - 1)) (Z.to_nat (j - 1))
  = cell arr (Z.to_nat (i - 1)) (Z.to_nat (j - 1)).
Proof.
  intros Hi Hj Hneg Hcmd. destruct input as [i' j' val'|]; [|reflexivity].
  destruct (decide (i' = i ∧ j' = j)) as [[-> ->]|Hother].
  - assert (val' = 0) as -> by lia.
    play_branches; try reflexivity; lia.
  - play_branches; try reflexivity; apply cell_store_ne; lia.
Qed.

(** C4 (as the program has it): [readLatinSquare] stores every number of
    the file as it stands.  A [0] is an empty cell.  A negative number is
    a given: the clear command on it is refused with "illegal to clear
    cell!", the array untouched and the game going on, and no clear
    command and no command aimed at another cell changes it.  A positive
    number is a cell of the player's: the clear command empties it. *)
Theorem loaded_cell_status filename n vs rest latinSquare i j :
  1 <= n <= Z.of_nat N → length vs = (Z.to_nat n * Z.to_nat n)%nat →
  wf_grid latinSquare → Forall is_int vs →
  1 <= i <= n → 1 <= j <= n →
  ∃ g, readLatinSquare filename (Some (TInt n :: map TInt vs ++ rest)) latinSquare
       = (n, [], g) ∧
    let r := Z.to_nat (i - 1) in
    let c := Z.to_nat (j - 1) in
    let v := default 0 (vs !! (r * Z.to_nat n + c)%nat) in
    cell g r c = v ∧
    (v = 0 → cell_view (cell g r c) = Empty) ∧
    (v < 0 →
       cell_view (cell g r c) = Fixed (abs v) ∧
       (∀ arr d f, cell arr r c = v →
          play_body arr n d f (Scan3 i j 0)
          = Outcome (prologue arr n d ++ [Printf ErrIllegalClear]) arr (Call n 0)) ∧
       ∀ arr d f input, cell arr r c = v →
         match input with
         | Scan3 i' j' val' => val' = 0 ∨ i' ≠ i ∨ j' ≠ j
         | ScanFail => True
         end →
         cell (after (play_body arr n d f input)) r c = v) ∧
    (0 < v →
       cell_view (cell g r c) = Filled v ∧
       ∀ d f, play_body g n d f (Scan3 i j 0)
              = Outcome (prologue g n d ++ [Printf ValueCleared])
                        (store g r c 0) (Call n 1) ∧
              cell (store g r c 0) r c = 0).
Proof.
  intros Hn Hlen Hwf Hint Hi Hj.
  destruct (readLatinSquare_ok filename n vs rest latinSquare Hn Hlen)
    as (g & Hread & Hspec).
  destruct (Hspec Hwf Hint) as [Hwfg Hcells].
  exists g. split; [exact Hread|]. intros r c v.
  assert (Hcell : cell g r c = v).
  { apply Hcells. apply in_use_command; assumption. }
  split; [exact Hcell|]. rewrite Hcell. unfold cell_view. split; [|split].
  - intros ->. reflexivity.
  - intros Hv. replace (v =? 0) with false by lia. replace (v <? 0) with true by lia.
    split; [reflexivity|]. split.
    + intros arr d f Harr.
      apply clear_given; [unfold in_range; lia|fold r c; lia].
    + intros arr d f input Harr Hcmd. rewrite <- Harr.
      apply given_survives; try assumption; try lia. fold r c. lia.
  - intros Hv. replace (v =? 0) with false by lia. replace (v <? 0) with false by lia.
    split; [reflexivity|]. intros d f. split.
    + apply clear_entered; [unfold in_range; lia|fold r c; lia].
    + apply cell_store_eq; [exact Hwfg|subst r; unfold N in *; lia|subst c; unfold N in *; lia].
Qed.

(** C6 (as the program has it): behind an accepted size, loading fails,
    and [main] never calls [play], exactly when fewer than [n * n]
    integers follow; the integers themselves are not compared with the
    size: whatever they are, they are stored and the game starts. *)
Theorem load_checks_only_integers prog arg fs stdin n vs rest :
  1 <= n <= Z.of_nat N →
  fs arg = Some (TInt n :: map TInt vs ++ rest) →
  Forall is_int vs →
  (length vs = (Z.to_nat n * Z.to_nat n)%nat →
     ∃ g, readLatinSquare arg (fs arg) zero_grid = (n, [], g) ∧
       (∀ r c, in_use n r c →
          cell g r c = default 0 (vs !! (r * Z.to_nat n + c)%nat)) ∧
       main [prog; arg] fs stdin = (0, play stdin g n 1 (out_name arg))) ∧
  ((length vs < Z.to_nat n * Z.to_nat n)%nat → fscanf_d rest = None →
     ∃ g, readLatinSquare arg (fs arg) zero_grid
          = (-1, [Printf ErrInvalidData], g) ∧
       main [prog; arg] fs stdin
       = (0, Run [Printf ErrInvalidData; Printf (ErrReadFailed arg)] g true)).
Proof.
  intros Hn Hfs Hint. split.
  - intros Hlen.
    destruct (readLatinSquare_ok arg n vs rest zero_grid Hn Hlen) as (g & Hread & Hspec).
    destruct (Hspec wf_zero_grid Hint) as [_ Hcells].
    exists g. rewrite Hfs. split; [exact Hread|]. split; [exact Hcells|].
    unfold main. rewrite Hfs, Hread. replace (n =? -1) with false by lia.
    destruct (play stdin g n 1 (out_name arg)); reflexivity.
  - intros Hlen Hrest.
    destruct (readLatinSquare_short arg n vs rest zero_grid Hn Hlen Hrest) as (g & Hread).
    exists g. rewrite Hfs. split; [exact Hread|].
    unfold main. rewrite Hfs, Hread. reflexivity.
Qed.

(** ** The 1 x 1 puzzle with a given *)

Lemma given_one_cell : cell given_one 0 0 = -1.
Proof. reflexivity. Qed.

Lemma given_one_scans : col_scan given_one 0 1 1 0 (row_scan given_one 0 1 1 0 0) = 1.
Proof. reflexivity. Qed.

(** On that puzzle every command but [0,0=0] is turned down. *)
Lemma given_one_step d f input :
  let o := play_body given_one 1 d f input in
  after o = given_one ∧ ¬ said o GameCompleted ∧
  ((next o = Return ∧ input = Scan3 0 0 0)
   ∨ (∃ d', next o = Call 1 d' ∧ input ≠ Scan3 0 0 0)).
Proof.
  destruct input as [i j val|]; cbv zeta.
  - destruct (decide (i = 0 ∧ j = 0 ∧ val = 0)) as [(-> & -> & ->)|Hq].
    + split; [reflexivity|]. split; [|left; split; reflexivity].
      intros H. unfold said in H. simpl in H. said_inv H.
    + assert (Hcmd : Scan3 i j val ≠ Scan3 0 0 0) by (intros E; injection E; lia).
      destruct (decide (i = 1 ∧ j = 1 ∧ (val = 0 ∨ val = 1)))
        as [(-> & -> & [->| ->])|Hr].
      * split; [reflexivity|]. split; [|right; exists 0; split; [reflexivity|exact Hcmd]].
        intros H. unfold said in H. simpl in H. said_inv H.
      * unfold said, play_body; cbv zeta.
        change (Z.to_nat (1 - 1)) with 0%nat. change (Z.to_nat 1) with 1%nat.
        rewrite given_one_cell, given_one_scans. simpl.
        split; [reflexivity|]. split; [|right; exists 0; split; [reflexivity|exact Hcmd]].
        intros H. said_inv H.
      * unfold said, play_body; cbv zeta.
        replace ((i =? 0) && (j =? 0) && (val =? 0)) with false by lia.
        replace ((i <? 1) || (i >? 1) || ((j <? 1) || (j >? 1))
                 || ((val <? 0) || (val >? 1))) with true by lia.
        simpl. split; [reflexivity|].
        split; [|right; exists 0; split; [reflexivity|exact Hcmd]].
        intros H. said_inv H.
  - split; [reflexivity|]. split; [|right; exists 0; split; [reflexivity|discriminate]].
    intros H. unfold said in H. simpl in H. said_inv H.
Qed.

Lemma given_one_play f : ∀ stdin d,
  final (play stdin given_one 1 d f) = given_one ∧
  ¬ In (Printf GameCompleted) (trace (play stdin given_one 1 d f)) ∧
  (returned (play stdin given_one 1 d f) = true ↔ In (Scan3 0 0 0) stdin).
Proof.
  induction stdin as [|input stdin IH]; intros d.
  - simpl. split; [reflexivity|]. split; [|split; [discriminate|contradiction]].
    intros H. rewrite <- (app_nil_r (prologue _ _ _)) in H.
    apply said_prologue in H. exact H.
  - destruct (given_one_step d f input) as (Hafter & Hquiet & Hnext).
    rewrite play_cons.
    destruct Hnext as [[-> ->]|(d' & -> & Hcmd)].
    + simpl. split; [reflexivity|]. split; [|split; auto].
      intros H. rewrite <- (app_nil_r (prologue _ _ _)), <- app_assoc in H.
      apply said_prologue in H. simpl in H. intuition discriminate.
    + rewrite Hafter. destruct (IH d') as (Hfinal & Htrace & Hret). simpl.
      split; [exact Hfinal|]. split.
      * intros H. apply in_app_or in H. destruct H as [H|H]; [exact (Hquiet H)|exact (Htrace H)].
      * rewrite Hret. split; [auto|]. intros [H|H]; [congruence|exact H].
Qed.

(** C7 (as the program has it): the 1 x 1 puzzle whose cell is a given
    [1] passes the winning test as loaded, but [play] makes that test
    only after an insertion.  With no command the game is still waiting
    for one; no command changes the cell or is answered by "Game
    completed!!!", and the game returns exactly when [0,0=0] is entered. *)
Theorem given_one_never_completes stdin d f :
  readLatinSquare f (Some given_one_file) zero_grid = (1, [], given_one) ∧
  cell_view (cell given_one 0 0) = Fixed 1 ∧
  game_won given_one 1 = 1 ∧
  returned (play [] given_one 1 d f) = false ∧
  final (play stdin given_one 1 d f) = given_one ∧
  ¬ In (Printf GameCompleted) (trace (play stdin given_one 1 d f)) ∧
  (returned (play stdin given_one 1 d f) = true ↔ In (Scan3 0 0 0) stdin).
Proof.
  split; [reflexivity|]. split; [reflexivity|]. split; [reflexivity|].
  split; [reflexivity|]. apply given_one_play.
Qed.

(** C5 (as the program has it): an in-range clear command on an empty
    cell is not an error: it is answered by "Value Cleared!", the array
    stays as it is, and the board is shown again for the next command. *)
Theorem clear_of_empty_cell_succeeds arr size d f i j :
  wf_grid arr → in_range size i j 0 →
  cell arr (Z.to_nat (i - 1)) (Z.to_nat (j - 1)) = 0 →
  let o := play_body arr size d f (Scan3 i j 0) in
  emitted o = prologue arr size d ++ [Printf ValueCleared] ∧
  after o = arr ∧
  next o = Call size 1 ∧
  ∀ m, said o m → is_error m = false.
Proof.
  intros Hwf Hrange Hcell o. subst o.
  rewrite (clear_empty arr size d f i j Hwf Hrange Hcell). simpl.
  split; [reflexivity|]. split; [reflexivity|]. split; [reflexivity|].
  intros m H. unfold said in H. simpl in H. said_inv H. reflexivity.
Qed.

(** C1 fails on the program for a given: in a 2 x 2 game whose top-left
    cell is a given [1], the command [1,1=2] is answered by "Value
    Inserted!" and the given is replaced by the player's [2]. *)
Theorem given_cell_overwritten :
  let o := play_body given_one 2 0 "out" (Scan3 1 1 2) in
  cell_view (cell given_one 0 0) = Fixed 1 ∧
  emitted o = [Printf ValueInserted] ∧
  ¬ said o ErrOccupied ∧
  cell_view (cell (after o) 0 0) = Filled 2 ∧
  next o = Call 2 1.
Proof.
  cbv zeta. split; [reflexivity|]. split; [reflexivity|]. split; [|split; reflexivity].
  intros [H|[]]. discriminate H.
Qed.

(** ** The statements at work on the sample boards *)

Lemma wf_given_one : wf_grid given_one.
Proof.
  apply wf_grid_store; [apply wf_zero_grid|]. unfold is_int, INT_MIN, INT_MAX. lia.
Qed.

Lemma no_duplicates_given_one : no_duplicates given_one 2.
Proof.
  split; intros a b1 b2 [Ha Hb1] [Ha2 Hb2] Hne H1 H2;
    change (Z.to_nat 2) with 2%nat in *;
    destruct a as [|[|]], b1 as [|[|]], b2 as [|[|]]; try lia;
    first [exfalso; apply H1; reflexivity|exfalso; apply H2; reflexivity].
Qed.

Lemma is_int_minus_one : Forall is_int [-1].
Proof. repeat constructor; unfold INT_MIN, INT_MAX; lia. Qed.

Lemma is_int_five : Forall is_int [5].
Proof. repeat constructor; unfold INT_MIN, INT_MAX; lia. Qed.

(** [1,2=1] on the board with the given [1] in the same row is refused. *)
Lemma play_error_keeps_grid_witness :
  said (play_body given_one 2 0 "out" (Scan3 1 2 1)) ErrIllegalInsertion ∧
  is_error ErrIllegalInsertion = true ∧
  after (play_body given_one 2 0 "out" (Scan3 1 2 1)) = given_one.
Proof.
  split; [left; reflexivity|]. split; [reflexivity|].
  apply (play_error_keeps_grid given_one 2 0 "out" (Scan3 1 2 1) ErrIllegalInsertion);
    [left; reflexivity|reflexivity].
Defined.

(** [1,2=2] on the same board is accepted and touches one cell. *)
Lemma play_success_frame_witness :
  said (play_body given_one 2 0 "out" (Scan3 1 2 2)) ValueInserted ∧
  cell (after (play_body given_one 2 0 "out" (Scan3 1 2 2))) 0 0 = -1.
Proof.
  split; [left; reflexivity|].
  destruct (play_success_frame given_one 2 0 "out" 1 2 2) as (_ & Hframe & _).
  - left. left. reflexivity.
  - rewrite (Hframe 0%nat 0%nat); [reflexivity|]. right. discriminate.
Defined.

(** [1,1=1] on the empty 1 x 1 board ends the game. *)
Lemma win_check_after_fill_witness :
  said (play_body zero_grid 1 0 "out" (Scan3 1 1 1)) ValueInserted ∧
  (all_filled (after (play_body zero_grid 1 0 "out" (Scan3 1 1 1))) 1
   ↔ next (play_body zero_grid 1 0 "out" (Scan3 1 1 1)) = Return).
Proof.
  split; [left; reflexivity|].
  destruct (win_check_after_fill zero_grid 1 0 "out" 1 1 1) as (_ & Hfill).
  destruct Hfill as (Hiff & _); [left; reflexivity|exact Hiff].
Defined.

Lemma placement_keeps_no_duplicates_witness :
  wf_grid given_one ∧ 2 <= Z.of_nat N ∧ no_duplicates given_one 2 ∧
  said (play_body given_one 2 0 "out" (Scan3 1 2 2)) ValueInserted ∧
  no_duplicates (after (play_body given_one 2 0 "out" (Scan3 1 2 2))) 2.
Proof.
  split; [exact wf_given_one|]. split; [unfold N; lia|].
  split; [exact no_duplicates_given_one|]. split; [left; reflexivity|].
  apply (placement_keeps_no_duplicates given_one 2 0 "out" 1 2 2);
    [exact wf_given_one|unfold N; lia|exact no_duplicates_given_one|left; reflexivity].
Defined.

(** [1,1=2] and then [1,1=0] on the empty 2 x 2 board. *)
Lemma place_then_clear_roundtrip_witness :
  wf_grid zero_grid ∧ 2 <= Z.of_nat N ∧ cell zero_grid 0 0 = 0 ∧
  said (play_body zero_grid 2 1 "out" (Scan3 1 1 2)) ValueInserted ∧
  after (play_body (after (play_body zero_grid 2 1 "out" (Scan3 1 1 2))) 2 1 "out"
           (Scan3 1 1 0)) = zero_grid.
Proof.
  split; [exact wf_zero_grid|]. split; [unfold N; lia|]. split; [reflexivity|].
  split; [right; right; left; reflexivity|].
  destruct (place_then_clear_roundtrip zero_grid 2 1 1 "out" 1 1 2) as (_ & Hback & _);
    [exact wf_zero_grid|unfold N; lia|reflexivity|right; right; left; reflexivity
    |exact Hback].
Defined.

Lemma loaded_cell_status_witness :
  ∃ g, readLatinSquare "f" (Some given_one_file) zero_grid = (1, [], g) ∧
       cell g 0 0 = -1 ∧ cell_view (cell g 0 0) = Fixed 1 ∧
       play_body g 1 0 "out" (Scan3 1 1 0)
       = Outcome [Printf ErrIllegalClear] g (Call 1 0).
Proof.
  destruct (loaded_cell_status "f" 1 [-1] [] zero_grid 1 1)
    as (g & Hread & Hcell & _ & Hgiven & _);
    [unfold N; lia|reflexivity|exact wf_zero_grid|exact is_int_minus_one|lia|lia|].
  exists g. split; [exact Hread|]. split; [exact Hcell|].
  destruct Hgiven as (Hview & Hrefused & _); [reflexivity|].
  split; [exact Hview|]. exact (Hrefused g 0 "out"%string Hcell).
Defined.

Lemma clear_of_empty_cell_succeeds_witness :
  wf_grid zero_grid ∧ in_range 2 1 1 0 ∧ cell zero_grid 0 0 = 0 ∧
  emitted (play_body zero_grid 2 0 "out" (Scan3 1 1 0)) = [Printf ValueCleared] ∧
  after (play_body zero_grid 2 0 "out" (Scan3 1 1 0)) = zero_grid.
Proof.
  split; [exact wf_zero_grid|]. split; [unfold in_range; lia|]. split; [reflexivity|].
  destruct (clear_of_empty_cell_succeeds zero_grid 2 0 "out" 1 1)
    as (Hsaid & Hafter & _);
    [exact wf_zero_grid|unfold in_range; lia|reflexivity|].
  split; [exact Hsaid|exact Hafter].
Defined.

Lemma load_checks_only_integers_witness :
  ∃ g, readLatinSquare "f" (Some five_file) zero_grid = (1, [], g) ∧
       cell g 0 0 = 5 ∧
       main ["prog"; "f"]%string (λ _, Some five_file) []
       = (0, play [] g 1 1 (out_name "f")).
Proof.
  destruct (load_checks_only_integers "prog" "f" (λ _, Some five_file) [] 1 [5] [])
    as (Hgood & _); [unfold N; lia|reflexivity|exact is_int_five|].
  destruct Hgood as (g & Hread & Hcells & Hmain); [reflexivity|].
  exists g. split; [exact Hread|]. split; [|exact Hmain].
  apply (Hcells 0%nat 0%nat). split; simpl; lia.
Defined.

(** ** Where the program departs from the description *)

(** Against C4: a cell written as [1] in the file is loaded as a cell of
    the player's, and the clear command empties it. *)
Lemma loaded_positive_is_cleared :
  readLatinSquare "f" (Some entered_one_file) zero_grid = (1, [], entered_one) ∧
  cell_view (cell entered_one 0 0) = Filled 1 ∧
  cell_view (cell entered_one 0 0) ≠ Fixed 1 ∧
  emitted (play_body entered_one 1 0 "out" (Scan3 1 1 0)) = [Printf ValueCleared] ∧
  cell_view (cell (after (play_body entered_one 1 0 "out" (Scan3 1 1 0))) 0 0) = Empty.
Proof.
  split; [reflexivity|]. split; [reflexivity|]. split; [discriminate|].
  split; reflexivity.
Qed.

(** Against C5: clearing an empty cell is answered by "Value Cleared!". *)
Lemma clear_of_empty_not_an_error :
  in_range 2 1 1 0 ∧ cell_view (cell zero_grid 0 0) = Empty ∧
  emitted (play_body zero_grid 2 0 "out" (Scan3 1 1 0)) = [Printf ValueCleared] ∧
  is_error ValueCleared = false.
Proof.
  split; [unfold in_range; lia|]. split; [reflexivity|]. split; reflexivity.
Qed.

(** Against C6: a 1 x 1 file whose cell is [5] loads, and the game starts. *)
Lemma out_of_range_value_loads :
  ¬ (0 <= 5 <= 1) ∧
  readLatinSquare "f" (Some five_file) zero_grid = (1, [], store zero_grid 0 0 5) ∧
  main ["prog"; "f"]%string (λ _, Some five_file) []
  = (0, Run [DisplayLatinSquare (store zero_grid 0 0 5) 1; DisplayInstructionDialogue]
            (store zero_grid 0 0 5) false).
Proof.
  split; [lia|]. split; reflexivity.
Qed.

(** Against C7: on the loaded 1 x 1 puzzle with a given [1] the program
    shows the board and waits for a command; it has not returned and has
    written nothing. *)
Lemma given_one_waits_for_command :
  game_won given_one 1 = 1 ∧
  main ["prog"; "f"]%string (λ _, Some given_one_file) []
  = (0, Run [DisplayLatinSquare given_one 1; DisplayInstructionDialogue]
            given_one false).
Proof.
  split; reflexivity.
Qed.

(** ** Whole runs of [play] *)

(** The size handed on to the next activation is the one received. *)
Lemma next_size arr size d f input size' d' :
  next (play_body arr size d f input) = Call size' d' → size' = size.
Proof.
  intros H. destruct input as [i j val|]; [|simpl in H; congruence].
  play_branches; congruence.
Qed.

Lemma cell_store_cases arr r c v r' c' :
  cell (store arr r c v) r' c' = v ∨ cell (store arr r c v) r' c' = cell arr r' c'.
Proof.
  destruct (decide (r = r' ∧ c = c')) as [[<- <-]|Hne].
  - unfold cell, store. rewrite list_lookup_alter_eq.
    destruct (arr !! r) as [row|]; simpl; [|right; reflexivity].
    destruct (decide (c < length row)%nat) as [Hc|Hc].
    + left. rewrite list_lookup_insert_eq by exact Hc. reflexivity.
    + right. rewrite list_insert_ge by lia. reflexivity.
  - right. apply cell_store_ne. destruct (decide (r = r')); [right|left]; intuition.
Qed.

Lemma play_body_wf arr size d f input :
  wf_grid arr → size <= Z.of_nat N → wf_grid (after (play_body arr size d f input)).
Proof.
  intros Hwf Hsize. destruct input as [i j val|]; [|exact Hwf].
  play_branches; try exact Hwf; apply wf_grid_store; try exact Hwf;
    apply (is_int_small size); lia.
Qed.

Lemma store_keeps_range arr size r c v :
  wf_grid arr → size <= Z.of_nat N → in_use size r c →
  v = 0 ∨ 1 <= v <= size →
  values_in_range arr size → values_in_range (store arr r c v) size.
Proof.
  intros Hwf Hsize Hrc Hv Hrange r' c' Huse.
  destruct (in_use_bound size r c Hsize Hrc) as [Hr Hc].
  destruct (decide (r = r' ∧ c = c')) as [[<- <-]|Hne].
  - rewrite cell_store_eq by assumption. intros Hnz.
    rewrite abs_small; [lia|]. unfold INT_MAX, N in *. lia.
  - rewrite cell_store_ne; [apply Hrange; exact Huse|].
    destruct (decide (r = r')); [right|left]; intuition.
Qed.

Lemma play_body_keeps_range arr size d f input :
  wf_grid arr → size <= Z.of_nat N → values_in_range arr size →
  values_in_range (after (play_body arr size d f input)) size.
Proof.
  intros Hwf Hsize Hrange. destruct input as [i j val|]; [|exact Hrange].
  play_branches; try exact Hrange;
    (apply store_keeps_range; try assumption; [apply in_use_command; lia|lia]).
Qed.

Lemma play_keeps_board_invariants_aux stdin : ∀ arr size d f,
  wf_grid arr → size <= Z.of_nat N →
  no_duplicates arr size → values_in_range arr size →
  wf_grid (final (play stdin arr size d f)) ∧
  no_duplicates (final (play stdin arr size d f)) size ∧
  values_in_range (final (play stdin arr size d f)) size.
Proof.
  induction stdin as [|input stdin IH]; intros arr size d f Hwf Hsize Hdup Hrange.
  - simpl. auto.
  - pose proof (play_body_wf arr size d f input Hwf Hsize) as Hwf'.
    pose proof (play_body_keeps_no_duplicates arr size d f input Hwf Hsize Hdup) as Hdup'.
    pose proof (play_body_keeps_range arr size d f input Hwf Hsize Hrange) as Hrange'.
    rewrite play_cons.
    destruct (next (play_body arr size d f input)) as [size' d'|] eqn:Hnext.
    + apply next_size in Hnext. subst size'. simpl. apply IH; assumption.
    + simpl. auto.
Qed.

(** X1: however many commands are entered, the array [play] ends with (or
    waits on) is still a 9 x 9 array of [int]s without a duplicate in any
    row or column and with all its numbers in [1 .. size], when the array
    it started from was such. *)
Theorem play_keeps_board_invariants stdin arr size d f :
  wf_grid arr → size <= Z.of_nat N →
  no_duplicates arr size → values_in_range arr size →
  wf_grid (final (play stdin arr size d f)) ∧
  no_duplicates (final (play stdin arr size d f)) size ∧
  values_in_range (final (play stdin arr size d f)) size.
Proof. apply play_keeps_board_invariants_aux. Qed.

(** "Game completed!!!" is printed by the activation that returns on a
    full board, and by no other. *)
Lemma completed_step arr size d f input :
  said (play_body arr size d f input) GameCompleted →
  next (play_body arr size d f input) = Return ∧
  all_filled (after (play_body arr size d f input)) size.
Proof.
  intros Hsaid. destruct input as [i j val|];
    [|unfold said in Hsaid; simpl in Hsaid; said_inv Hsaid].
  play_branches; try (said_inv Hsaid; fail);
    match goal with
    | H : (game_won ?a ?s =? _) = _ |- _ =>
        destruct (game_won_cases a s) as [[E Hf]|[E Hf]]; rewrite E in *;
        try discriminate
    end; (split; [reflexivity|exact Hf]).
Qed.

Lemma completed_run stdin : ∀ arr size d f,
  In (Printf GameCompleted) (trace (play stdin arr size d f)) →
  returned (play stdin arr size d f) = true ∧
  all_filled (final (play stdin arr size d f)) size.
Proof.
  induction stdin as [|input stdin IH]; intros arr size d f Hin.
  - simpl in Hin. rewrite <- (app_nil_r (prologue _ _ _)) in Hin.
    apply said_prologue in Hin. contradiction.
  - rewrite play_cons in *.
    destruct (next (play_body arr size d f input)) as [size' d'|] eqn:Hnext;
      simpl in *.
    + apply in_app_or in Hin. destruct Hin as [Hin|Hin].
      * apply completed_step in Hin. destruct Hin as [Hret _]. congruence.
      * apply next_size in Hnext. subst size'. apply IH. exact Hin.
    + split; [reflexivity|]. apply completed_step. exact Hin.
Qed.

(** [n] different numbers of [1 .. n] are all of them. *)
Lemma all_numbers_shown (f : nat → Z) (n : nat) :
  (∀ c, (c < n)%nat → 1 <= f c <= Z.of_nat n) →
  (∀ c1 c2, (c1 < n)%nat → (c2 < n)%nat → c1 ≠ c2 → f c1 ≠ f c2) →
  ∀ v, 1 <= v <= Z.of_nat n → ∃ c, (c < n)%nat ∧ f c = v.
Proof.
  intros Hrange Hinj v Hv.
  assert (Hincl : incl (map Z.of_nat (seq 1 n)) (map f (seq 0 n))).
  { apply NoDup_length_incl.
    - apply NoDup_map_NoDup_ForallPairs; [|apply seq_NoDup].
      intros a b Ha Hb Hab. apply in_seq in Ha. apply in_seq in Hb.
      destruct (decide (a = b)) as [E|E]; [exact E|].
      exfalso. apply (Hinj a b); [lia|lia|exact E|exact Hab].
    - rewrite !length_map, !length_seq. lia.
    - intros x Hx. apply in_map_iff in Hx. destruct Hx as (c & <- & Hc).
      apply in_seq in Hc. apply in_map_iff. exists (Z.to_nat (f c)).
      pose proof (Hrange c ltac:(lia)). split; [lia|]. apply in_seq. lia. }
  assert (Hin : In v (map Z.of_nat (seq 1 n))).
  { apply in_map_iff. exists (Z.to_nat v). split; [lia|]. apply in_seq. lia. }
  apply Hincl, in_map_iff in Hin. destruct Hin as (c & Hc & Hseq).
  apply in_seq in Hseq. exists c. split; [lia|exact Hc].
Qed.

Lemma full_board_latin arr size :
  all_filled arr size → no_duplicates arr size → values_in_range arr size →
  latin_square arr size.
Proof.
  intros Hfull [Hrows Hcols] Hrange. split.
  - intros r v Hr Hv.
    destruct (all_numbers_shown (λ c, abs (cell arr r c)) (Z.to_nat size)) with (v := v)
      as (c & Hc & Hshow).
    + intros c Hc. pose proof (Hrange r c (conj Hr Hc) (Hfull r c (conj Hr Hc))). lia.
    + intros c1 c2 Hc1 Hc2 Hne.
      apply Hrows; try (split; assumption); try assumption;
        apply Hfull; split; assumption.
    + lia.
    + exists c. split; [split; assumption|]. split; [exact Hshow|].
      intros c' Huse Hshow'. destruct (decide (c' = c)) as [E|E]; [exact E|].
      exfalso. apply (Hrows r c' c); try assumption; try (split; assumption);
        try (apply Hfull; try assumption; split; assumption). congruence.
  - intros c v Hc Hv.
    destruct (all_numbers_shown (λ r, abs (cell arr r c)) (Z.to_nat size)) with (v := v)
      as (r & Hr & Hshow).
    + intros r Hr. pose proof (Hrange r c (conj Hr Hc) (Hfull r c (conj Hr Hc))). lia.
    + intros r1 r2 Hr1 Hr2 Hne.
      apply Hcols; try (split; assumption); try assumption;
        apply Hfull; split; assumption.
    + lia.
    + exists r. split; [split; assumption|]. split; [exact Hshow|].
      intros r' Huse Hshow'. destruct (decide (r' = r)) as [E|E]; [exact E|].
      exfalso. apply (Hcols c r' r); try assumption; try (split; assumption);
        try (apply Hfull; try assumption; split; assumption). congruence.
Qed.

(** X2: when a game that started from a board without duplicates and with
    its numbers in [1 .. size] prints "Game completed!!!", the array it
    ends with is a Latin square: every number of [1 .. size] is shown
    exactly once in each row and in each column. *)
Theorem completed_game_is_latin_square stdin arr size d f :
  wf_grid arr → size <= Z.of_nat N →
  no_duplicates arr size → values_in_range arr size →
  In (Printf GameCompleted) (trace (play stdin arr size d f)) →
  returned (play stdin arr size d f) = true ∧
  latin_square (final (play stdin arr size d f)) size.
Proof.
  intros Hwf Hsize Hdup Hrange Hdone.
  destruct (completed_run stdin arr size d f Hdone) as [Hret Hfull].
  destruct (play_keeps_board_invariants_aux stdin arr size d f Hwf Hsize Hdup Hrange)
    as (_ & Hdup' & Hrange').
  split; [exact Hret|]. apply full_board_latin; assumption.
Qed.

(** ** The checks of [play] *)

(** The flag of the two scans is up as soon as the row or the column
    shows [val]. *)
Lemma scans_blocked arr r c val size :
  (∃ k, (k < size)%nat ∧
        ((cell arr r k ≠ 0 ∧ abs (cell arr r k) = val) ∨
         (cell arr k c ≠ 0 ∧ abs (cell arr k c) = val))) →
  col_scan arr c val size 0 (row_scan arr r val size 0 0) = 1.
Proof.
  intros (k & Hk & Hshown).
  destruct (row_scan_spec arr r val size 0 0) as [(E & _)|(E & Hrow)]; rewrite E.
  - destruct (col_scan_spec arr c val size 0 1) as [(E1 & _)|(E1 & _)]; exact E1.
  - destruct (col_scan_spec arr c val size 0 0) as [(E0 & _)|(E0 & Hcol)]; [exact E0|].
    exfalso. destruct Hshown as [[Hnz Hv]|[Hnz Hv]].
    + destruct (Hrow k ltac:(lia)); contradiction.
    + destruct (Hcol k ltac:(lia)); contradiction.
Qed.

(** X3: a value for an empty cell is refused with "Illegal value
    insertion!", the array untouched, exactly when a cell of the same row
    or of the same column shows that value (givens count by the number
    they show); otherwise it is inserted. *)
Theorem placement_accepted_iff arr size d f i j val :
  in_range size i j val → val ≠ 0 →
  cell arr (Z.to_nat (i - 1)) (Z.to_nat (j - 1)) = 0 →
  let o := play_body arr size d f (Scan3 i j val) in
  let r := Z.to_nat (i - 1) in
  let c := Z.to_nat (j - 1) in
  let shown := ∃ k, (k < Z.to_nat size)%nat ∧
                    ((cell arr r k ≠ 0 ∧ abs (cell arr r k) = val) ∨
                     (cell arr k c ≠ 0 ∧ abs (cell arr k c) = val)) in
  (shown → o = Outcome (prologue arr size d ++ [Printf ErrIllegalInsertion])
                       arr (Call size 0)) ∧
  (¬ shown → said o ValueInserted ∧ after o = store arr r c val).
Proof.
  intros (Hi & Hj & Hv) Hnz Hcell o r c shown. subst o. split.
  - intros Hs. apply scans_blocked in Hs. subst r c.
    unfold play_body; cbv zeta. rewrite Hs, Hcell. simpl.
    repeat match goal with
           | |- context [if ?b then _ else _] => destruct b eqn:?
           end; try reflexivity; lia.
  - intros Hs.
    assert (Hscan : col_scan arr c val (Z.to_nat size) 0
                      (row_scan arr r val (Z.to_nat size) 0 0) ≠ 1).
    { intros E. apply Hs. unfold shown.
      destruct (row_scan_spec arr r val (Z.to_nat size) 0 0)
        as [(_ & k & Hk & Hk')|(E0 & _)].
      - exists k. split; [lia|left; exact Hk'].
      - rewrite E0 in E.
        destruct (col_scan_spec arr c val (Z.to_nat size) 0 0)
          as [(_ & k & Hk & Hk')|(E1 & _)]; [|congruence].
        exists k. split; [lia|right; exact Hk']. }
    subst r c. unfold said, play_body; cbv zeta. rewrite Hcell. simpl.
    repeat match goal with
           | |- context [if ?b then _ else _] => destruct b eqn:?
           end; simpl; try lia;
      (split; [apply in_or_app; right; left; reflexivity|reflexivity]).
Qed.

(** X4: a command other than [0,0=0] is answered with "outside the
    allowed range", the array untouched and the board not shown again,
    exactly when a coordinate is outside [1 .. size] or the value outside
    [0 .. size]. *)
Theorem out_of_range_refused arr size d f i j val :
  ¬ (i = 0 ∧ j = 0 ∧ val = 0) →
  (¬ in_range size i j val ↔
   play_body arr size d f (Scan3 i j val)
   = Outcome (prologue arr size d ++ [Printf (ErrOutOfRange size)]) arr (Call size 0)).
Proof.
  intros Hq. unfold in_range. split.
  - intros Hr. unfold play_body; cbv zeta.
    replace ((i =? 0) && (j =? 0) && (val =? 0)) with false by lia.
    replace ((i <? 1) || (i >? size) || ((j <? 1) || (j >? size))
             || ((val <? 0) || (val >? size))) with true by lia.
    reflexivity.
  - intros Heq Hr.
    assert (Hsaid : said (play_body arr size d f (Scan3 i j val)) (ErrOutOfRange size)).
    { rewrite Heq. unfold said. simpl. apply in_or_app. right. left. reflexivity. }
    clear Heq. play_branches; try (said_inv Hsaid; fail); lia.
Qed.

(** X5: every error message of [play] stands alone: after it the game goes
    on with the same array and size, and the board is not shown again. *)
Theorem error_reprompts arr size d f input m :
  said (play_body arr size d f input) m → is_error m = true →
  play_body arr size d f input
  = Outcome (prologue arr size d ++ [Printf m]) arr (Call size 0).
Proof.
  intros Hsaid Herr. destruct input as [i j val|].
  - play_branches; said_inv Hsaid; try discriminate Herr; reflexivity.
  - unfold said in Hsaid. simpl in Hsaid. said_inv Hsaid. reflexivity.
Qed.

(** X6: a cell of the player's is changed by no command but the one that
    clears it: values entered on it and commands aimed elsewhere leave it
    as it is. *)
Theorem entered_cell_only_cleared arr size d f i j input :
  1 <= i → 1 <= j →
  0 < cell arr (Z.to_nat (i - 1)) (Z.to_nat (j - 1)) →
  cell (after (play_body arr size d f input)) (Z.to_nat (i - 1)) (Z.to_nat (j - 1))
  = cell arr (Z.to_nat (i - 1)) (Z.to_nat (j - 1))
  ∨ input = Scan3 i j 0.
Proof.
  intros Hi Hj Hpos. destruct input as [i' j' val'|]; [|left; reflexivity].
  destruct (decide (i' = i ∧ j' = j)) as [[-> ->]|Hother].
  - destruct (Z.eq_dec val' 0) as [->|Hval]; [right; reflexivity|]. left.
    play_branches; try reflexivity; lia.
  - left. play_branches; try reflexivity; apply cell_store_ne; lia.
Qed.

(** ** Saving *)

Lemma prologue_no_write arr size d : List.filter is_write (prologue arr size d) = [].
Proof. unfold prologue. destruct (d =? 1); reflexivity. Qed.

(** An activation writes the file exactly when it returns, and then it
    writes the array it leaves. *)
Lemma step_writes arr size d f input :
  List.filter is_write (emitted (play_body arr size d f input))
  = match next (play_body arr size d f input) with
    | Return => [WriteLatinSquare (after (play_body arr size d f input)) size f]
    | Call _ _ => []
    end.
Proof.
  destruct input as [i j val|];
    [|simpl; rewrite List.filter_app, prologue_no_write; reflexivity].
  play_branches; rewrite List.filter_app, prologue_no_write; try reflexivity;
    try congruence;
    match goal with
    | H : (game_won ?a ?s =? _) = _ |- _ =>
        destruct (game_won_cases a s) as [[E _]|[E _]]; rewrite E in *; discriminate
    end.
Qed.

Lemma play_writes_once_aux stdin : ∀ arr size d f,
  List.filter is_write (trace (play stdin arr size d f))
  = if returned (play stdin arr size d f)
    then [WriteLatinSquare (final (play stdin arr size d f)) size f]
    else [].
Proof.
  induction stdin as [|input stdin IH]; intros arr size d f.
  - simpl. apply prologue_no_write.
  - rewrite play_cons. pose proof (step_writes arr size d f input) as Hstep.
    destruct (next (play_body arr size d f input)) as [size' d'|] eqn:Hnext; simpl.
    + apply next_size in Hnext. subst size'.
      rewrite List.filter_app, Hstep. simpl. apply IH.
    + exact Hstep.
Qed.

(** X7: a run of [play] calls [writeLatinSquare] once if it returns and
    never if it is still waiting for a command, and what it writes is the
    array it ends with, under the size and the file name it was given. *)
Theorem play_writes_once stdin arr size d f :
  List.filter is_write (trace (play stdin arr size d f))
  = if returned (play stdin arr size d f)
    then [WriteLatinSquare (final (play stdin arr size d f)) size f]
    else [].
Proof. apply play_writes_once_aux. Qed.

(** ** Givens *)

Lemma step_given_untouched arr size d f input r c :
  cell (after (play_body arr size d f input)) r c < 0 →
  cell (after (play_body arr size d f input)) r c = cell arr r c.
Proof.
  destruct input as [i j val|]; [|reflexivity].
  play_branches; intros H; try reflexivity;
    match goal with
    | H : cell (store ?a ?r' ?c' ?v) ?r ?c < 0 |- _ =>
        destruct (cell_store_cases a r' c' v r c) as [E|E]; [lia|exact E]
    end.
Qed.

(** X8: [play] never makes a given: a cell that is negative at the end of
    a run held the same number when the run began. *)
Theorem play_never_makes_given stdin : ∀ arr size d f r c,
  cell (final (play stdin arr size d f)) r c < 0 →
  cell arr r c = cell (final (play stdin arr size d f)) r c.
Proof.
  induction stdin as [|input stdin IH]; intros arr size d f r c.
  - simpl. reflexivity.
  - rewrite play_cons.
    destruct (next (play_body arr size d f input)) as [size' d'|] eqn:Hnext; simpl.
    + intros Hneg. rewrite <- (IH _ _ _ _ _ _ Hneg). symmetry.
      apply step_given_untouched. rewrite (IH _ _ _ _ _ _ Hneg). exact Hneg.
    + intros Hneg. symmetry. apply step_given_untouched. exact Hneg.
Qed.

(** ** More on loading *)

Lemma cell_out_of_bounds g r c :
  wf_grid g → (N <= r)%nat ∨ (N <= c)%nat → cell g r c = 0.
Proof.
  intros [Hlen Hrows] Hout. unfold cell.
  destruct (g !! r) as [row|] eqn:Hrow; simpl; [|reflexivity].
  destruct (row !! c) as [x|] eqn:Hx; simpl; [|reflexivity].
  pose proof (lookup_lt_Some _ _ _ Hrow) as Hr.
  pose proof (lookup_lt_Some _ _ _ Hx) as Hc.
  pose proof (proj1 (Forall_lookup _ _) Hrows r row Hrow) as [Hl _].
  lia.
Qed.

(** Two 9 x 9 arrays with the same cells are the same array. *)
Lemma grid_ext g g' :
  wf_grid g → wf_grid g' → (∀ r c, cell g r c = cell g' r c) → g = g'.
Proof.
  intros Hwf Hwf' Hcells. apply list_eq. intros r.
  destruct (decide (r < N)%nat) as [Hr|Hr].
  - destruct (wf_grid_row g r Hwf Hr) as (row & Hrow & Hl & _).
    destruct (wf_grid_row g' r Hwf' Hr) as (row' & Hrow' & Hl' & _).
    rewrite Hrow, Hrow'. f_equal. apply list_eq. intros c.
    pose proof (Hcells r c) as Hc. unfold cell in Hc. rewrite Hrow, Hrow' in Hc.
    simpl in Hc. destruct (decide (c < N)%nat) as [Hlt|Hge].
    + destruct (lookup_lt_is_Some_2 row c) as [x Hx]; [lia|].
      destruct (lookup_lt_is_Some_2 row' c) as [y Hy]; [lia|].
      rewrite Hx, Hy in *. simpl in Hc. congruence.
    + rewrite !lookup_ge_None_2 by lia. reflexivity.
  - destruct Hwf as [Hlen _], Hwf' as [Hlen' _].
    rewrite !lookup_ge_None_2 by lia. reflexivity.
Qed.

Lemma clear_row_spec js : ∀ g i,
  wf_grid g → (i < N)%nat → (∀ j, In j js → (j < N)%nat) →
  wf_grid (fold_left (λ g' j, store g' i j 0) js g) ∧
  (∀ c, In c js → cell (fold_left (λ g' j, store g' i j 0) js g) i c = 0) ∧
  (∀ r c, cell g r c = 0 → cell (fold_left (λ g' j, store g' i j 0) js g) r c = 0).
Proof.
  induction js as [|j js IH]; intros g i Hwf Hi Hjs; simpl.
  - split; [exact Hwf|]. split; [intros c []|auto].
  - assert (Hwf1 : wf_grid (store g i j 0)).
    { apply wf_grid_store; [exact Hwf|]. unfold is_int, INT_MIN, INT_MAX. lia. }
    destruct (IH (store g i j 0) i Hwf1 Hi) as (Hwf' & Hin & Hkeep).
    { intros k Hk. apply Hjs. right. exact Hk. }
    split; [exact Hwf'|]. split.
    + intros c [<-|Hc]; [|apply Hin; exact Hc].
      apply Hkeep. apply cell_store_eq; [exact Hwf|exact Hi|].
      apply Hjs. left. reflexivity.
    + intros r c Hz. apply Hkeep.
      destruct (cell_store_cases g i j 0 r c) as [E|E]; [exact E|congruence].
Qed.

Lemma clear_rows_spec rs : ∀ g,
  wf_grid g → (∀ i, In i rs → (i < N)%nat) →
  let g' := fold_left
              (λ g i, fold_left (λ g' j, store g' i j 0) (seq 0 N) g) rs g in
  wf_grid g' ∧
  (∀ r c, In r rs → (c < N)%nat → cell g' r c = 0) ∧
  (∀ r c, cell g r c = 0 → cell g' r c = 0).
Proof.
  induction rs as [|i rs IH]; intros g Hwf Hrs; simpl.
  - split; [exact Hwf|]. split; [intros r c []|auto].
  - destruct (clear_row_spec (seq 0 N) g i Hwf) as (Hwf1 & Hin1 & Hkeep1).
    { apply Hrs. left. reflexivity. }
    { intros j Hj. apply in_seq in Hj. lia. }
    destruct (IH _ Hwf1) as (Hwf' & Hin & Hkeep).
    { intros k Hk. apply Hrs. right. exact Hk. }
    split; [exact Hwf'|]. split.
    + intros r c [<-|Hr] Hc; [|apply Hin; assumption].
      apply Hkeep, Hin1. apply in_seq. lia.
    + intros r c Hz. apply Hkeep, Hkeep1, Hz.
Qed.

(** The zeroing loops leave no number in the array. *)
Lemma clear_all_cells g r c : wf_grid g → cell (clear_all g) r c = 0.
Proof.
  intros Hwf.
  destruct (clear_rows_spec (seq 0 N) g Hwf) as (Hwf' & Hin & _).
  { intros i Hi. apply in_seq in Hi. lia. }
  fold (clear_all g) in Hwf', Hin.
  destruct (decide (r < N ∧ c < N)%nat) as [[Hr Hc]|Hout].
  - apply Hin; [apply in_seq; lia|exact Hc].
  - apply cell_out_of_bounds; [exact Hwf'|lia].
Qed.

Lemma int_tokens_tail t fp : int_tokens (t :: fp) → int_tokens fp.
Proof. intros H. inversion H. assumption. Qed.

(** Whatever the file holds, the inner reading loop writes to columns
    [j .. j+n-1] of row [i] only. *)
Lemma read_row_frame n : ∀ fp g i j,
  wf_grid g → int_tokens fp → (i < N)%nat → (j + n <= N)%nat →
  wf_grid (fst (read_row fp g i n j)) ∧
  (∀ r c, ¬ (r = i ∧ (j <= c < j + n)%nat) →
     cell (fst (read_row fp g i n j)) r c = cell g r c) ∧
  (∀ fp', snd (read_row fp g i n j) = Some fp' → int_tokens fp').
Proof.
  induction n as [|n IH]; intros fp g i j Hwf Hint Hi Hj; simpl.
  - split; [exact Hwf|]. split; [reflexivity|]. intros fp' E. congruence.
  - destruct fp as [|[z|] fp]; simpl;
      try (split; [exact Hwf|]; split; [reflexivity|]; intros fp' E; discriminate).
    inversion Hint as [|? ? Hz Hrest]; subst.
    destruct (IH fp (store g i j z) i (S j)) as (Hwf' & Hout & Hfp);
      [apply wf_grid_store; assumption|exact Hrest|exact Hi|lia|].
    split; [exact Hwf'|]. split; [|exact Hfp].
    intros r c Hrc. rewrite Hout by lia. apply cell_store_ne.
    destruct (decide (i = r)) as [<-|]; [right; lia|left; assumption].
Qed.

Lemma read_rows_frame size n : ∀ fp g i,
  wf_grid g → int_tokens fp → (i + n <= N)%nat → (size <= N)%nat →
  wf_grid (fst (read_rows fp g size n i)) ∧
  (∀ r c, ¬ ((i <= r < i + n)%nat ∧ (c < size)%nat) →
     cell (fst (read_rows fp g size n i)) r c = cell g r c).
Proof.
  induction n as [|n IH]; intros fp g i Hwf Hint Hi Hsize; simpl.
  - split; [exact Hwf|reflexivity].
  - destruct (read_row_frame size fp g i 0 Hwf Hint) as (Hwf1 & Hout1 & Hfp1);
      [lia|lia|].
    destruct (read_row fp g i size 0) as [g1 [fp1|]]; simpl in *.
    + destruct (IH fp1 g1 (S i) Hwf1 (Hfp1 fp1 eq_refl)) as (Hwf' & Hout); [lia|lia|].
      split; [exact Hwf'|]. intros r c Hrc. rewrite Hout by lia. apply Hout1. lia.
    + split; [exact Hwf1|]. intros r c Hrc. apply Hout1. lia.
Qed.

Lemma load_result_aux filename file latinSquare :
  wf_grid latinSquare → (∀ fp, file = Some fp → int_tokens fp) →
  ∃ n said g, readLatinSquare filename file latinSquare = (n, said, g) ∧
    wf_grid g ∧
    ((n = -1 ∧
      (said = [Printf (ErrAccessFile filename)] ∧ g = latinSquare ∨
       said = [Printf ErrInvalidSize] ∧ g = latinSquare ∨
       said = [Printf ErrInvalidData]))
     ∨ (1 <= n <= 9 ∧ said = [] ∧ blank_outside g n)).
Proof.
  intros Hwf Hfile. unfold readLatinSquare.
  destruct file as [fp|]; [|do 3 eexists; split; [reflexivity|]; split; [exact Hwf|];
                             left; split; [reflexivity|left; split; reflexivity]].
  specialize (Hfile fp eq_refl).
  destruct fp as [|[n|] fp]; cbv [fscanf_d];
    try (do 3 eexists; split; [reflexivity|]; split; [exact Hwf|];
         left; split; [reflexivity|right; left; split; reflexivity]).
  destruct ((n <=? 0) || (n >? Z.of_nat N)) eqn:Hn;
    [do 3 eexists; split; [reflexivity|]; split; [exact Hwf|];
     left; split; [reflexivity|right; left; split; reflexivity]|].
  change (Z.of_nat N) with 9 in Hn.
  destruct (read_rows_frame (Z.to_nat n) (Z.to_nat n) fp (clear_all latinSquare) 0)
    as (Hwf' & Hout);
    [apply wf_clear_all, Hwf|apply (int_tokens_tail _ _ Hfile)|unfold N; lia
    |unfold N; lia|].
  destruct (read_rows fp (clear_all latinSquare) (Z.to_nat n) (Z.to_nat n) 0)
    as [g [fp'|]]; simpl in *.
  - exists n, [], g. split; [reflexivity|]. split; [exact Hwf'|]. right.
    split; [lia|]. split; [reflexivity|].
    intros r c Huse. unfold in_use in Huse. rewrite Hout by lia.
    apply clear_all_cells, Hwf.
  - exists (-1), [Printf ErrInvalidData], g. split; [reflexivity|].
    split; [exact Hwf'|]. left. split; [reflexivity|]. right. right. reflexivity.
Qed.


(** ** Saving and loading again *)

Lemma write_row_length arr i n : ∀ j, length (write_row arr i n j) = n.
Proof. induction n as [|n IH]; intros j; simpl; [reflexivity|]. rewrite IH. reflexivity. Qed.

Lemma write_row_lookup arr i n : ∀ j k,
  (k < n)%nat → write_row arr i n j !! k = Some (cell arr i (j + k)).
Proof.
  induction n as [|n IH]; intros j k Hk; [lia|]. simpl.
  destruct k as [|k]; simpl.
  - replace (j + 0)%nat with j by lia. reflexivity.
  - rewrite IH by lia. do 2 f_equal. lia.
Qed.

Lemma write_row_ints arr i n : ∀ j, wf_grid arr → Forall is_int (write_row arr i n j).
Proof.
  induction n as [|n IH]; intros j Hwf; simpl; constructor.
  - apply cell_is_int, Hwf.
  - apply IH, Hwf.
Qed.

Lemma write_rows_spec arr size n : ∀ i,
  length (concat (write_rows arr size n i)) = (n * size)%nat ∧
  (wf_grid arr → Forall is_int (concat (write_rows arr size n i))) ∧
  (∀ a b, (a < n)%nat → (b < size)%nat →
     concat (write_rows arr size n i) !! (a * size + b)%nat
     = Some (cell arr (i + a) b)).
Proof.
  induction n as [|n IH]; intros i; simpl.
  - split; [reflexivity|]. split; [constructor|]. intros a b Ha. lia.
  - destruct (IH (S i)) as (Hlen & Hint & Hlook).
    split; [rewrite length_app, write_row_length, Hlen; reflexivity|].
    split; [intros Hwf; apply Forall_app; split;
            [apply write_row_ints, Hwf|apply Hint, Hwf]|].
    intros [|a] b Ha Hb.
    + rewrite lookup_app_l by (rewrite write_row_length; lia).
      simpl. rewrite write_row_lookup by lia.
      replace (i + 0)%nat with i by lia. reflexivity.
    + rewrite lookup_app_r by (rewrite write_row_length; lia).
      rewrite write_row_length.
      replace (S a * size + b - size)%nat with (a * size + b)%nat by lia.
      rewrite Hlook by lia. do 2 f_equal. lia.
Qed.

Lemma int_tokens_map vs : Forall is_int vs → int_tokens (map TInt vs).
Proof.
  intros H. induction H as [|v vs Hv _ IH]; simpl; constructor; assumption.
Qed.

Lemma save_then_load_aux arr size fileNameOut filename latinSquare :
  wf_grid arr → 1 <= size <= Z.of_nat N → wf_grid latinSquare →
  ∃ t g, writeLatinSquare arr size fileNameOut true
         = (SavingDone fileNameOut, Some t) ∧
    readLatinSquare filename (Some (tokens_of t)) latinSquare = (size, [], g) ∧
    (∀ r c, in_use size r c → cell g r c = cell arr r c) ∧
    blank_outside g size ∧
    (blank_outside arr size → g = arr).
Proof.
  intros Hwf Hsize Hwf0.
  destruct (write_rows_spec arr (Z.to_nat size) (Z.to_nat size) 0)
    as (Hlen & Hint & Hlook).
  set (vs := concat (write_rows arr (Z.to_nat size) (Z.to_nat size) 0)) in *.
  destruct (readLatinSquare_ok filename size vs [] latinSquare Hsize Hlen)
    as (g & Hread & Hspec).
  destruct (Hspec Hwf0 (Hint Hwf)) as [Hwfg Hcells].
  rewrite app_nil_r in Hread.
  assert (Hin : ∀ r c, in_use size r c → cell g r c = cell arr r c).
  { intros r c Huse. rewrite (Hcells r c Huse).
    destruct Huse as [Hr Hc]. rewrite (Hlook r c Hr Hc). reflexivity. }
  assert (Hblank : blank_outside g size).
  { destruct (load_result_aux filename (Some (TInt size :: map TInt vs)) latinSquare Hwf0)
      as (n' & said' & g' & Hread' & _ & Hcases).
    - intros fp E. injection E as <-. constructor.
      + apply (is_int_small 9); unfold N in *; lia.
      + apply int_tokens_map, Hint, Hwf.
    - rewrite Hread in Hread'. injection Hread' as <- <- <-.
      destruct Hcases as [[E _]|(_ & _ & Hb)]; [lia|exact Hb]. }
  exists ([size] :: write_rows arr (Z.to_nat size) (Z.to_nat size) 0), g.
  split; [reflexivity|]. split; [exact Hread|]. split; [exact Hin|].
  split; [exact Hblank|]. intros Harr. apply grid_ext; [exact Hwfg|exact Hwf|].
  intros r c. destruct (decide (in_use size r c)) as [Huse|Hout].
  - apply Hin, Huse.
  - rewrite (Hblank r c Hout), (Harr r c Hout). reflexivity.
Qed.

(** X10: what [writeLatinSquare] writes, [readLatinSquare] reads back:
    the size, and in the corner in use the very numbers of the array,
    signs included, so that givens stay givens; the cells outside the
    corner are read back as [0]. *)
Theorem save_then_load arr size fileNameOut filename latinSquare :
  wf_grid arr → 1 <= size <= Z.of_nat N → wf_grid latinSquare →
  ∃ t g, writeLatinSquare arr size fileNameOut true
         = (SavingDone fileNameOut, Some t) ∧
    readLatinSquare filename (Some (tokens_of t)) latinSquare = (size, [], g) ∧
    (∀ r c, in_use size r c → cell g r c = cell arr r c) ∧
    blank_outside g size ∧
    (blank_outside arr size → g = arr).
Proof. apply save_then_load_aux. Qed.

Lemma play_body_keeps_blank arr size d f input :
  blank_outside arr size → blank_outside (after (play_body arr size d f input)) size.
Proof.
  intros Hblank. destruct input as [i j val|]; [|exact Hblank].
  play_branches; try exact Hblank; intros r c Hout;
    (rewrite cell_store_ne; [apply Hblank, Hout|]); unfold in_use in Hout; lia.
Qed.

Lemma play_keeps_shape stdin : ∀ arr size d f,
  wf_grid arr → size <= Z.of_nat N → blank_outside arr size →
  wf_grid (final (play stdin arr size d f)) ∧
  blank_outside (final (play stdin arr size d f)) size.
Proof.
  induction stdin as [|input stdin IH]; intros arr size d f Hwf Hsize Hblank.
  - simpl. auto.
  - pose proof (play_body_wf arr size d f input Hwf Hsize) as Hwf'.
    pose proof (play_body_keeps_blank arr size d f input Hblank) as Hblank'.
    rewrite play_cons.
    destruct (next (play_body arr size d f input)) as [size' d'|] eqn:Hnext.
    + apply next_size in Hnext. subst size'. simpl. apply IH; assumption.
    + simpl. auto.
Qed.

(** X11: a game that began on a board with nothing outside its corner
    and has ended, by [0,0=0] or by completing the board, has written a
    file from which [readLatinSquare] restores exactly the array the
    game ended with, under the same size. *)
Theorem saved_game_reloads stdin arr size d f latinSquare :
  wf_grid arr → 1 <= size <= Z.of_nat N → blank_outside arr size →
  wf_grid latinSquare →
  returned (play stdin arr size d f) = true →
  ∃ t, List.filter is_write (trace (play stdin arr size d f))
       = [WriteLatinSquare (final (play stdin arr size d f)) size f] ∧
    writeLatinSquare (final (play stdin arr size d f)) size f true
    = (SavingDone f, Some t) ∧
    readLatinSquare f (Some (tokens_of t)) latinSquare
    = (size, [], final (play stdin arr size d f)).
Proof.
  intros Hwf Hsize Hblank Hwf0 Hret.
  destruct (play_keeps_shape stdin arr size d f Hwf ltac:(lia) Hblank) as [Hwf' Hblank'].
  destruct (save_then_load_aux (final (play stdin arr size d f)) size f f latinSquare
              Hwf' Hsize Hwf0) as (t & g & Hwrite & Hread & _ & _ & Hsame).
  exists t. split; [|split; [exact Hwrite|]].
  - rewrite play_writes_once_aux, Hret. reflexivity.
  - rewrite Hread, (Hsame Hblank'). reflexivity.
Qed.

(** ** [main] *)

Lemma substring_whole s : ∀ m, (String.length s <= m)%nat → substring 0 m s = s.
Proof.
  induction s as [|a s IH]; intros [|m] Hm; simpl in *; try reflexivity; try lia.
  rewrite IH by lia. reflexivity.
Qed.

Lemma substring_cut s : ∀ m,
  String.length (substring 0 m s) = Nat.min m (String.length s) ∧
  ∃ rest, s = (substring 0 m s ++ rest)%string.
Proof.
  induction s as [|a s IH]; intros [|m]; simpl.
  - split; [reflexivity|]. exists EmptyString. reflexivity.
  - split; [reflexivity|]. exists EmptyString. reflexivity.
  - split; [reflexivity|]. exists (String a s). reflexivity.
  - destruct (IH m) as (Hlen & rest & Hrest). split; [rewrite Hlen; reflexivity|].
    exists rest. rewrite <- Hrest. reflexivity.
Qed.

(** X12: the name of the output file is "out-" followed by the name of
    the input file, cut after 49 characters as [snprintf] does with a
    buffer of 50: it is the beginning of that text, as long as the text
    or 49 characters long, whichever is less; so an input name of up to
    45 characters is kept whole, and of a longer one exactly the first 45
    characters are kept. *)
Theorem out_name_bounds arg :
  String.length (out_name arg) = Nat.min 49 (4 + String.length arg) ∧
  (∃ rest, ("out-" ++ arg)%string = (out_name arg ++ rest)%string) ∧
  (∀ p, (p < 49)%nat → get p (out_name arg) = get p ("out-" ++ arg)%string) ∧
  ((String.length arg <= 45)%nat → out_name arg = ("out-" ++ arg)%string).
Proof.
  unfold out_name.
  destruct (substring_cut ("out-" ++ arg) 49) as (Hlen & Hrest).
  split; [exact Hlen|]. split; [exact Hrest|]. split.
  - intros p Hp. rewrite (substring_correct1 ("out-" ++ arg) 0 49 p Hp).
    replace (p + 0)%nat with p by lia. reflexivity.
  - intros Hshort. apply substring_whole. simpl. lia.
Qed.


(** X14: once [play] has returned, by [0,0=0] or on a completed board,
    it reads nothing more: whatever follows on standard input changes
    neither the output nor the array. *)
Theorem play_stops_reading stdin : ∀ more arr size d f,
  returned (play stdin arr size d f) = true →
  play (stdin ++ more) arr size d f = play stdin arr size d f.
Proof.
  induction stdin as [|input stdin IH]; intros more arr size d f Hret.
  - simpl in Hret. discriminate.
  - rewrite <- app_comm_cons, !play_cons. rewrite play_cons in Hret.
    destruct (next (play_body arr size d f input)) as [size' d'|]; [|reflexivity].
    simpl in Hret. rewrite (IH more _ _ _ _ Hret). reflexivity.
Qed.

(** ** These statements at work on the sample boards *)

Lemma cell_zero_grid r c : cell zero_grid r c = 0.
Proof.
  unfold cell, zero_grid.
  destruct (replicate N (replicate N 0) !! r) as [row|] eqn:E; simpl; [|reflexivity].
  apply lookup_replicate in E as [-> _].
  destruct (replicate N 0 !! c) as [x|] eqn:E2; simpl; [|reflexivity].
  apply lookup_replicate in E2 as [-> _]. reflexivity.
Qed.

Lemma no_duplicates_zero_grid size : no_duplicates zero_grid size.
Proof.
  split; intros a b1 b2 _ _ _ H1 _; exfalso; apply H1, cell_zero_grid.
Qed.

Lemma values_in_range_zero_grid size : values_in_range zero_grid size.
Proof. intros r c _ H. exfalso. apply H, cell_zero_grid. Qed.

Lemma values_in_range_given_one : values_in_range given_one 2.
Proof.
  intros r c [Hr Hc] Hnz. change (Z.to_nat 2) with 2%nat in *.
  destruct r as [|[|]], c as [|[|]]; try lia;
    first [split; vm_compute; discriminate|exfalso; apply Hnz; reflexivity].
Qed.

Lemma blank_outside_given_one : blank_outside given_one 2.
Proof.
  intros r c Hout. unfold given_one. rewrite cell_store_ne; [apply cell_zero_grid|].
  unfold in_use in Hout. change (Z.to_nat 2) with 2%nat in Hout. lia.
Qed.


(** A 2 x 2 game on the board with the given [1]: two entries and a line
    that is no command. *)
Lemma play_keeps_board_invariants_witness :
  wf_grid given_one ∧ 2 <= Z.of_nat N ∧
  no_duplicates given_one 2 ∧ values_in_range given_one 2 ∧
  no_duplicates
    (final (play [Scan3 1 2 2; ScanFail; Scan3 2 1 2] given_one 2 1 "out")) 2.
Proof.
  split; [exact wf_given_one|]. split; [unfold N; lia|].
  split; [exact no_duplicates_given_one|]. split; [exact values_in_range_given_one|].
  destruct (play_keeps_board_invariants [Scan3 1 2 2; ScanFail; Scan3 2 1 2]
              given_one 2 1 "out") as (_ & Hdup & _);
    [exact wf_given_one|unfold N; lia|exact no_duplicates_given_one
    |exact values_in_range_given_one|exact Hdup].
Defined.

(** The same game played to its end. *)
Lemma completed_game_is_latin_square_witness :
  In (Printf GameCompleted)
     (trace (play [Scan3 1 2 2; Scan3 2 1 2; Scan3 2 2 1] given_one 2 0 "out")) ∧
  latin_square
    (final (play [Scan3 1 2 2; Scan3 2 1 2; Scan3 2 2 1] given_one 2 0 "out")) 2.
Proof.
  assert (Hdone : In (Printf GameCompleted)
            (trace (play [Scan3 1 2 2; Scan3 2 1 2; Scan3 2 2 1] given_one 2 0 "out"))).
  { vm_compute. repeat (try (left; reflexivity); right). }
  split; [exact Hdone|].
  destruct (completed_game_is_latin_square [Scan3 1 2 2; Scan3 2 1 2; Scan3 2 2 1]
              given_one 2 0 "out") as [_ Hlatin];
    [exact wf_given_one|unfold N; lia|exact no_duplicates_given_one
    |exact values_in_range_given_one|exact Hdone|exact Hlatin].
Defined.

(** A second [1] in the row of the given [1]. *)
Lemma placement_accepted_iff_witness :
  in_range 2 1 2 1 ∧ cell given_one 0 1 = 0 ∧
  play_body given_one 2 0 "out" (Scan3 1 2 1)
  = Outcome [Printf ErrIllegalInsertion] given_one (Call 2 0).
Proof.
  split; [unfold in_range; lia|]. split; [reflexivity|].
  destruct (placement_accepted_iff given_one 2 0 "out" 1 2 1) as [Hshown _];
    [unfold in_range; lia|discriminate|reflexivity|].
  apply Hshown. exists 0%nat. split; [simpl; lia|]. left.
  split; [discriminate|reflexivity].
Defined.

(** [0,1=0] is no save-and-quit command. *)
Lemma out_of_range_refused_witness :
  ¬ in_range 2 0 1 0 ∧
  play_body zero_grid 2 0 "out" (Scan3 0 1 0)
  = Outcome [Printf (ErrOutOfRange 2)] zero_grid (Call 2 0).
Proof.
  assert (Hout : ¬ in_range 2 0 1 0) by (unfold in_range; lia).
  split; [exact Hout|].
  apply (proj1 (out_of_range_refused zero_grid 2 0 "out" 0 1 0 ltac:(lia)) Hout).
Defined.

Lemma error_reprompts_witness :
  said (play_body given_one 2 0 "out" (Scan3 1 1 0)) ErrIllegalClear ∧
  play_body given_one 2 0 "out" (Scan3 1 1 0)
  = Outcome [Printf ErrIllegalClear] given_one (Call 2 0).
Proof.
  split; [left; reflexivity|].
  apply (error_reprompts given_one 2 0 "out" (Scan3 1 1 0) ErrIllegalClear);
    [left; reflexivity|reflexivity].
Defined.

Lemma entered_cell_only_cleared_witness :
  0 < cell entered_one 0 0 ∧
  (cell (after (play_body entered_one 2 0 "out" (Scan3 1 1 2))) 0 0
   = cell entered_one 0 0
   ∨ Scan3 1 1 2 = Scan3 1 1 0).
Proof.
  split; [reflexivity|].
  apply (entered_cell_only_cleared entered_one 2 0 "out" 1 1 (Scan3 1 1 2));
    [lia|lia|reflexivity].
Defined.

Lemma play_never_makes_given_witness :
  cell (final (play [Scan3 1 2 2] given_one 2 0 "out")) 0 0 < 0 ∧
  cell given_one 0 0 = cell (final (play [Scan3 1 2 2] given_one 2 0 "out")) 0 0.
Proof.
  split; [reflexivity|].
  apply (play_never_makes_given [Scan3 1 2 2] given_one 2 0 "out" 0%nat 0%nat).
  reflexivity.
Defined.


Lemma save_then_load_witness :
  ∃ t, writeLatinSquare given_one 2 "out-f" true = (SavingDone "out-f", Some t) ∧
       readLatinSquare "out-f" (Some (tokens_of t)) zero_grid = (2, [], given_one).
Proof.
  destruct (save_then_load given_one 2 "out-f" "out-f" zero_grid)
    as (t & g & Hwrite & Hread & _ & _ & Hsame);
    [exact wf_given_one|unfold N; lia|exact wf_zero_grid|].
  exists t. split; [exact Hwrite|].
  rewrite Hread, (Hsame blank_outside_given_one). reflexivity.
Defined.

Lemma saved_game_reloads_witness :
  returned (play [Scan3 1 2 2; Scan3 0 0 0] given_one 2 1 "out-f") = true ∧
  ∃ t, writeLatinSquare (final (play [Scan3 1 2 2; Scan3 0 0 0] given_one 2 1 "out-f"))
         2 "out-f" true = (SavingDone "out-f", Some t) ∧
       readLatinSquare "out-f" (Some (tokens_of t)) zero_grid
       = (2, [], final (play [Scan3 1 2 2; Scan3 0 0 0] given_one 2 1 "out-f")).
Proof.
  split; [reflexivity|].
  destruct (saved_game_reloads [Scan3 1 2 2; Scan3 0 0 0] given_one 2 1 "out-f" zero_grid)
    as (t & _ & Hwrite & Hread);
    [exact wf_given_one|unfold N; lia|exact blank_outside_given_one|exact wf_zero_grid
    |reflexivity|].
  exists t. split; [exact Hwrite|exact Hread].
Defined.

Lemma out_name_bounds_witness :
  (String.length "game.txt" <= 45)%nat ∧
  out_name "game.txt" = "out-game.txt"%string ∧
  String.length
    (out_name "a-latin-square-puzzle-with-a-very-long-file-name.txt") = 49%nat ∧
  get 48 (out_name "a-latin-square-puzzle-with-a-very-long-file-name.txt")
  = get 44 "a-latin-square-puzzle-with-a-very-long-file-name.txt".
Proof.
  split; [simpl; lia|]. split.
  - destruct (out_name_bounds "game.txt") as (_ & _ & _ & Hwhole).
    apply Hwhole. simpl. lia.
  - destruct (out_name_bounds "a-latin-square-puzzle-with-a-very-long-file-name.txt")
      as (Hlen & _ & Hget & _).
    split; [rewrite Hlen; reflexivity|]. rewrite (Hget 48%nat); [reflexivity|lia].
Defined.


Lemma play_stops_reading_witness :
  returned (play [Scan3 0 0 0] given_one 2 0 "out") = true ∧
  play ([Scan3 0 0 0] ++ [Scan3 1 2 2]) given_one 2 0 "out"
  = play [Scan3 0 0 0] given_one 2 0 "out".
Proof.
  split; [reflexivity|].
  apply (play_stops_reading [Scan3 0 0 0] [Scan3 1 2 2] given_one 2 0 "out").
  reflexivity.
Defined.

End LatinSquare.
